(** * MusicPlayer: chord resolution, playback dispatch and socket handling

    A shallow embedding of [client/src/MusicPlayer.tsx].  The component keeps
    three pieces of logic that are worth stating precisely:

    - [chordToNotes], a lookup in a static object literal;
    - [playInstrument], which resolves a chord and schedules one attack and
      one release per note on the synthesizer stored under an instrument name;
    - [onMessage], which parses a socket payload and dispatches every
      string-valued field, together with the two audio-context buttons.

    Times are JavaScript numbers in the source.  They are idealised here as
    exact rationals ([Q]); every statement about a time is up to [Qeq]. *)

From Stdlib Require Import String Ascii List ZArith QArith Lia DecimalString
  DecimalNat.
From stdpp Require Import gmap strings list fin_maps.
Close Scope Q_scope.
Local Open Scope string_scope.
Local Open Scope list_scope.

(** ** Property access on object literals

    [chordMap], [synths] and [timeTable] are plain object literals, so their
    prototype is [Object.prototype].  The expression [obj[key]] first looks
    for an own property and then walks the prototype chain; a key such as
    [toString] therefore yields a built-in function although no literal
    lists it. *)

Module Js.

Inductive BuiltinObject :=
| BuiltinFunction (name : string)
| ObjectPrototypeItself.

Inductive Fetched (A : Type) :=
| Value (a : A)
| Builtin (b : BuiltinObject)
| Undefined.
Arguments Value {A} a.
Arguments Builtin {A} b.
Arguments Undefined {A}.

(** The string-keyed properties of [Object.prototype].  All but [__proto__]
    are functions; [__proto__] is an accessor whose getter returns the
    prototype of the receiver, which for an object literal is
    [Object.prototype] itself. *)
Definition ObjectPrototype : gmap string BuiltinObject :=
  list_to_map
    [ ("constructor", BuiltinFunction "Object");
      ("__defineGetter__", BuiltinFunction "__defineGetter__");
      ("__defineSetter__", BuiltinFunction "__defineSetter__");
      ("hasOwnProperty", BuiltinFunction "hasOwnProperty");
      ("__lookupGetter__", BuiltinFunction "__lookupGetter__");
      ("__lookupSetter__", BuiltinFunction "__lookupSetter__");
      ("isPrototypeOf", BuiltinFunction "isPrototypeOf");
      ("propertyIsEnumerable", BuiltinFunction "propertyIsEnumerable");
      ("toString", BuiltinFunction "toString");
      ("valueOf", BuiltinFunction "valueOf");
      ("toLocaleString", BuiltinFunction "toLocaleString");
      ("__proto__", ObjectPrototypeItself) ].

(** [get own key] is [obj[key]] for an object literal whose own properties
    are [own]. *)
Definition get {A : Type} (own : gmap string A) (key : string) : Fetched A :=
  match own !! key with
  | Some a => Value a
  | None =>
      match ObjectPrototype !! key with
      | Some b => Builtin b
      | None => Undefined
      end
  end.

(** Truthiness.  Own values of the three literals are arrays, objects and
    non-empty strings; built-ins are objects.  Only [undefined] is falsy. *)
Definition truthy {A : Type} (v : Fetched A) : bool :=
  match v with
  | Undefined => false
  | _ => true
  end.

Inductive Error :=
| TypeError (msg : string)
| SyntaxError (msg : string)
| LibraryError (msg : string).

End Js.

Import Js.

(** ** The chord table (lines 52-67) *)

Definition chordMap : gmap string (list string) :=
  list_to_map
    [ ("Amaj", ["A"; "C#"; "E"]);
      ("Bmaj", ["B"; "D#"; "F#"]);
      ("Cmaj", ["C"; "E"; "G"]);
      ("Dmaj", ["D"; "F#"; "A"]);
      ("Emaj", ["E"; "G#"; "B"]);
      ("Fmaj", ["F"; "A"; "C"]);
      ("Gmaj", ["G"; "B"; "D"]);
      ("Amin", ["A"; "C"; "E"]);
      ("Bmin", ["B"; "D"; "F#"]);
      ("Cmin", ["C"; "Eb"; "G"]);
      ("Dmin", ["D"; "F"; "A"]);
      ("Emin", ["E"; "G"; "B"]);
      ("Fmin", ["F"; "Ab"; "C"]);
      ("Gmin", ["G"; "Bb"; "D"]) ].

(** [return chordMap[chord] || [];] *)
Definition chordToNotes (chord : string) : Fetched (list string) :=
  let found := get chordMap chord in
  if truthy found then found else Value [].


(** ** Synthesizers, the audio context and the observable trace *)

(** The classes that the [Synths] interface (lines 8-16) gives its fields. *)
Inductive ToneClass :=
| MembraneSynth
| NoiseSynth
| MetalSynth
| Synth
| PolySynth
| Sampler.

(** The set published by [loadSynths] (lines 37-45), field by field with the
    class that the interface declares for it. *)
Definition loadedSynths : gmap string ToneClass :=
  list_to_map
    [ ("kick", MembraneSynth);
      ("snare", NoiseSynth);
      ("bass_drum", MembraneSynth);
      ("hihat", MetalSynth);
      ("bass_guitar", Synth);
      ("guitar", PolySynth);
      ("piano", Sampler) ].

(** Lines 20-28. *)
Definition timeTable : gmap string string :=
  list_to_map
    [ ("snare", "8n");
      ("kick", "2n");
      ("bass_drum", "2n");
      ("hihat", "16n");
      ("bass_guitar", "2n");
      ("guitar", "2n");
      ("piano", "2n") ].

(** A method call made on the synthesizer stored under [instrument].  The
    two release forms are the two argument lists used at lines 94 and 97. *)
Inductive Call :=
| triggerAttack (instrument note : string) (time : Q)
| triggerReleaseNote (instrument note : string) (time : Q)
| triggerRelease (instrument : string) (time : Q)
| triggerAttackRelease (instrument note : string)
    (duration : Fetched string) (time : Q).

Inductive AudioContextState := suspended | running | closed.

Inductive ContextCall := resume | close.

Inductive Event :=
| Called (c : Call)
| ContextCalled (c : ContextCall)
| ConsoleLog (msg : string)
| ConsoleError (msg : string) (err : option Error).

Record World := mkWorld {
  trace : list Event;
  clockReads : nat;
  contextState : AudioContextState
}.

Definition record (e : Event) (w : World) : World :=
  mkWorld (trace w ++ [e]) (clockReads w) (contextState w).

(** The synthesizer calls of a trace, in order. *)
Definition callsOf (tr : list Event) : list Call :=
  omap (fun e => match e with Called c => Some c | _ => None end) tr.

Definition isConsole (e : Event) : bool :=
  match e with
  | ConsoleLog _ | ConsoleError _ _ => true
  | _ => false
  end.

(** ** Computations that may throw *)

Inductive Outcome (A : Type) :=
| Normal (a : A)
| Thrown (e : Error).
Arguments Normal {A} a.
Arguments Thrown {A} e.

Definition M (A : Type) : Type := World -> Outcome A * World.

Definition ret {A : Type} (a : A) : M A := fun w => (Normal a, w).

Definition bind {A B : Type} (c : M A) (k : A -> M B) : M B :=
  fun w =>
    match c w with
    | (Normal a, w') => k a w'
    | (Thrown e, w') => (Thrown e, w')
    end.

Definition throw {A : Type} (e : Error) : M A := fun w => (Thrown e, w).

(** [try { body } catch (error) { handler error }] *)
Definition tryCatch {A : Type} (body : M A) (handler : Error -> M A) : M A :=
  fun w =>
    match body w with
    | (Normal a, w') => (Normal a, w')
    | (Thrown e, w') => handler e w'
    end.

Notation "'do' x <- c ; k" := (bind c (fun x => k))
  (at level 10, x name, c at level 100, k at level 200).
Notation "c >> k" := (bind c (fun _ => k))
  (at level 100, k at level 200, right associativity).

Definition console_log (msg : string) : M unit :=
  fun w => (Normal tt, record (ConsoleLog msg) w).

Definition console_error (msg : string) (err : option Error) : M unit :=
  fun w => (Normal tt, record (ConsoleError msg err) w).

(** [arr.forEach((x, index) => f x index)], starting at [index]. *)
Fixpoint forEachFrom {A : Type} (f : A -> nat -> M unit) (l : list A)
    (index : nat) : M unit :=
  match l with
  | [] => ret tt
  | x :: rest => f x index >> forEachFrom f rest (S index)
  end.

(** [arr.map(f)] with an effectful callback. *)
Fixpoint mapM {A B : Type} (f : A -> M B) (l : list A) : M (list B) :=
  match l with
  | [] => ret []
  | x :: rest => do y <- f x; do ys <- mapM f rest; ret (y :: ys)
  end.

(** ** Parsed socket payloads *)

(** A value produced by [JSON.parse].  The fields of an object are listed in
    the order in which [Object.entries] enumerates them. *)
#[warnings="-register-all"]
Inductive Json :=
| JNull
| JBool (b : bool)
| JNumber (q : Q)
| JString (s : string)
| JArray (items : list Json)
| JObject (fields : list (string * Json)).

Definition indexKey (n : nat) : string :=
  NilEmpty.string_of_uint (Nat.to_uint n).

Fixpoint indexedFrom {A : Type} (f : A -> Json) (l : list A) (i : nat)
    : list (string * Json) :=
  match l with
  | [] => []
  | x :: rest => (indexKey i, f x) :: indexedFrom f rest (S i)
  end.

(** [Object.entries(bundle)]: the own enumerable properties.  [null] is not
    coercible to an object; numbers and booleans have none; a string and an
    array have one per index (for a string, one per character of an ASCII
    payload). *)
Definition Object_entries (bundle : Json) : M (list (string * Json)) :=
  match bundle with
  | JNull => throw (TypeError "Cannot convert undefined or null to object")
  | JBool _ | JNumber _ => ret []
  | JString s =>
      ret (indexedFrom (fun c => JString (String c EmptyString))
             (list_ascii_of_string s) 0)
  | JArray items => ret (indexedFrom (fun v => v) items 0)
  | JObject fields => ret fields
  end.

(** ** The component *)

Section MusicPlayer.

(** What the surrounding platform decides: the successive readings of
    [Tone.now()], whether a synthesizer method throws (given the trace so
    far), the result of [JSON.parse], and how the audio context answers
    [resume()] and [close()]. *)
Variable Tone_now : nat -> Q.
Variable synthFault : list Event -> Call -> option Error.
Variable JSON_parse : string -> Outcome Json.
Variable platformResume : AudioContextState -> Outcome AudioContextState.
Variable platformClose : AudioContextState -> Outcome AudioContextState.

Definition toneNow : M Q :=
  fun w =>
    (Normal (Tone_now (clockReads w)),
     mkWorld (trace w) (S (clockReads w)) (contextState w)).

(** Calling a method of a synthesizer: the call is made, and may throw. *)
Definition invoke (c : Call) : M unit :=
  fun w =>
    match synthFault (trace w) c with
    | None => (Normal tt, record (Called c) w)
    | Some e => (Thrown e, record (Called c) w)
    end.

(** [synth instanceof Tone.Sampler] *)
Definition instanceofSampler (synth : Fetched ToneClass) : bool :=
  match synth with
  | Value Sampler => true
  | _ => false
  end.

(** ['triggerAttack' in synth].  Every instrument class of the library
    defines [triggerAttack]; neither a built-in function nor
    [Object.prototype] has such a property; [in] applied to [undefined]
    throws. *)
Definition hasTriggerAttack (synth : Fetched ToneClass) : M bool :=
  match synth with
  | Value _ => ret true
  | Builtin _ => ret false
  | Undefined =>
      throw (TypeError "Cannot use 'in' operator to search for 'triggerAttack' in undefined")
  end.

(** [synth.triggerAttackRelease(note, duration, time)]: a method of every
    instrument class, and not a property of any built-in. *)
Definition callTriggerAttackRelease (instrument : string)
    (synth : Fetched ToneClass) (note : string) (duration : Fetched string)
    (time : Q) : M unit :=
  match synth with
  | Value _ => invoke (triggerAttackRelease instrument note duration time)
  | _ => throw (TypeError "synth.triggerAttackRelease is not a function")
  end.

(** [note.length === 1 ? `${note}4` : note] (line 89).  The note names come
    from the chord table and are ASCII, so the length in code units of the
    source is the length in bytes here. *)
Definition noteWithOctave (note : string) : string :=
  if Nat.eqb (String.length note) 1 then note +:+ "4" else note.

(** [Tone.now() + index * 0.2 + 0.1] (line 90) *)
Definition startTimeAt (now : Q) (index : nat) : Q :=
  (now + inject_Z (Z.of_nat index) * (2 # 10) + (1 # 10))%Q.

(** The body of the [forEach] callback (lines 88-104). *)
Definition playNote (instrument : string) (synth : Fetched ToneClass)
    (note : string) (index : nat) : M unit :=
  let noteWithOctave := noteWithOctave note in
  do now <- toneNow;
  let startTime := startTimeAt now index in
  if instanceofSampler synth then
    invoke (triggerAttack instrument noteWithOctave startTime) >>
    invoke (triggerReleaseNote instrument noteWithOctave (startTime + (5 # 10))%Q)
  else
    do has <- hasTriggerAttack synth;
    if has : bool then
      invoke (triggerAttack instrument noteWithOctave startTime) >>
      invoke (triggerRelease instrument (startTime + (5 # 10))%Q)
    else
      callTriggerAttackRelease instrument synth noteWithOctave
        (get timeTable instrument) startTime.

(** [notes.forEach(callback)], where [notes] is whatever [chordToNotes]
    returned: only an array has a [forEach] method. *)
Definition forEachNote (notes : Fetched (list string))
    (callback : string -> nat -> M unit) : M unit :=
  match notes with
  | Value l => forEachFrom callback l 0
  | _ => throw (TypeError "notes.forEach is not a function")
  end.

(** [!chordOrNote]: [undefined] and the empty string are falsy. *)
Definition givenChord (chordOrNote : option string) : option string :=
  match chordOrNote with
  | Some EmptyString => None
  | other => other
  end.

(** The [try] block of lines 85-105. *)
Definition tryBlock (instrument : string) (synth : Fetched ToneClass)
    (chord : string) : M unit :=
  console_log ("Playing " +:+ instrument +:+ " notes " +:+ chord) >>
  let notes := chordToNotes chord in
  forEachNote notes (playNote instrument synth).

(** Lines 72-111.  [synths] is the component state, [None] until
    [loadSynths] has published the set. *)
Definition playInstrument (synths : option (gmap string ToneClass))
    (instrument : string) (chordOrNote : option string) : M unit :=
  match givenChord chordOrNote, synths with
  | Some chord, Some loaded =>
      let synth := get loaded instrument in
      if negb (truthy synth) then
        console_error ("Instrument " +:+ instrument +:+ " not found") None
      else
        tryCatch
          (tryBlock instrument synth chord)
          (fun error =>
             console_error ("Error in playInstrument for " +:+ instrument +:+ ":")
               (Some error))
  | _, _ => console_error "Synths not loaded or invalid note" None
  end.

(** Lines 113-127, for an arbitrary dispatcher.  The [map] callback calls
    the dispatcher for a string-valued field and returns [undefined] either
    way, so [filter(Boolean)] leaves no promise to await. *)
Definition onMessageVia (dispatch : string -> option string -> M unit)
    (data : string) : M unit :=
  do bundle <- (fun w => (JSON_parse data, w));
  do entries <- Object_entries bundle;
  do results <-
    mapM (fun entry : string * Json =>
            let '(instrument, chord) := entry in
            match chord with
            | JString chord => dispatch instrument (Some chord)
            | _ => ret tt
            end)
         entries;
  ret tt.

(** The handler as registered on the socket: it dispatches to
    [playInstrument]. *)
Definition onMessage (synths : option (gmap string ToneClass))
    (data : string) : M unit :=
  onMessageVia (playInstrument synths) data.

(** ** Audio context buttons *)

Definition isRunning (s : AudioContextState) : bool :=
  match s with
  | running => true
  | _ => false
  end.

Definition contextCall (c : ContextCall)
    (platform : AudioContextState -> Outcome AudioContextState) : M unit :=
  fun w =>
    let w' := record (ContextCalled c) w in
    match platform (contextState w) with
    | Normal next => (Normal tt, mkWorld (trace w') (clockReads w') next)
    | Thrown e => (Thrown e, w')
    end.

(** Lines 138-147. *)
Definition handleStartAudio : M unit :=
  fun w =>
    if negb (isRunning (contextState w)) then
      tryCatch
        (contextCall resume platformResume >>
         console_log "Audio context started")
        (fun error => console_error "Error starting audio context:" (Some error))
        w
    else ret tt w.

(** Lines 149-157.  The [then]/[catch] chain on the promise returned by
    [close()] is a [try]/[catch] around the continuation. *)
Definition handleStopAudio : M unit :=
  fun w =>
    if isRunning (contextState w) then
      tryCatch
        (contextCall close platformClose >>
         console_log "Audio context stopped")
        (fun error => console_error "Error stopping audio context:" (Some error))
        w
    else ret tt w.

End MusicPlayer.

Arguments toneNow Tone_now w /.
Arguments invoke synthFault c w /.

(** ** Reading traces *)

Definition instrumentOf (c : Call) : string :=
  match c with
  | triggerAttack i _ _ => i
  | triggerReleaseNote i _ _ => i
  | triggerRelease i _ => i
  | triggerAttackRelease i _ _ _ => i
  end.

(** The note name passed to a call, when it takes one. *)
Definition noteOf (c : Call) : option string :=
  match c with
  | triggerAttack _ n _ => Some n
  | triggerReleaseNote _ n _ => Some n
  | triggerRelease _ _ => None
  | triggerAttackRelease _ n _ _ => Some n
  end.

(** A computation is quiet when all it adds to the trace is console output
    and it leaves the audio context alone. *)
Definition Quiet {A : Type} (c : M A) : Prop :=
  forall w, exists logs,
    trace (c w).2 = trace w ++ logs /\
    Forall (fun e => isConsole e = true) logs /\
    contextState (c w).2 = contextState w.

(** ** The expected schedule

    [noteCalls] and [scheduled] are not part of the source: they describe
    the calls that a chord should produce, and [playInstrument_scheduled]
    compares the dispatcher with them. *)

(** The two calls made for one note on a synthesizer of class [cls]. *)
Definition noteCalls (instrument : string) (cls : ToneClass) (note : string)
    (startTime : Q) : list Call :=
  match cls with
  | Sampler =>
      [ triggerAttack instrument (noteWithOctave note) startTime;
        triggerReleaseNote instrument (noteWithOctave note)
          (startTime + (5 # 10))%Q ]
  | _ =>
      [ triggerAttack instrument (noteWithOctave note) startTime;
        triggerRelease instrument (startTime + (5 # 10))%Q ]
  end.

(** The calls for a list of notes, the first one at position [index] and
    with [reads] earlier readings of the clock. *)
Fixpoint scheduled (Tone_now : nat -> Q) (instrument : string)
    (cls : ToneClass) (notes : list string) (index reads : nat) : list Call :=
  match notes with
  | [] => []
  | note :: rest =>
      noteCalls instrument cls note (startTimeAt (Tone_now reads) index)
      ++ scheduled Tone_now instrument cls rest (S index) (S reads)
  end.

(** ** Dispatching the fields of a message

    [stringFields] and [dispatchEach] are not part of the source either:
    they say what handling a message should amount to, and
    [onMessageVia_object] compares the handler with them. *)

(** The string-valued fields of a parsed object, in enumeration order. *)
Definition stringFields (fields : list (string * Json))
    : list (string * string) :=
  omap (fun entry : string * Json =>
          match entry.2 with
          | JString chord => Some (entry.1, chord)
          | _ => None
          end)
       fields.

(** One call of the dispatcher per listed pair, in order. *)
Fixpoint dispatchEach (dispatch : string -> option string -> M unit)
    (pairs : list (string * string)) : M unit :=
  match pairs with
  | [] => ret tt
  | (instrument, chord) :: rest =>
      dispatch instrument (Some chord) >> dispatchEach dispatch rest
  end.

(** The text [{"kick":"Cmaj"}]. *)
Definition quote : string := String "034"%char EmptyString.

Definition kickCmajPayload : string :=
  "{" +:+ quote +:+ "kick" +:+ quote +:+ ":"
      +:+ quote +:+ "Cmaj" +:+ quote +:+ "}".

(** ** A sample platform *)

Module Sample.

(** A platform on which the clock stands still at 2 s, no synthesizer
    method throws, and [JSON.parse] knows two payloads. *)
Definition clock (k : nat) : Q := 2 # 1.

Definition sound (tr : list Event) (c : Call) : option Error := None.

(** A sampler whose buffers never loaded. *)
Definition unloaded (tr : list Event) (c : Call) : option Error :=
  Some (LibraryError "buffer is either not set or not loaded").

Definition mixedPayload : string := "kick, volume and piano".

Definition mixedFields : list (string * Json) :=
  [ ("kick", JString "Cmaj"); ("volume", JNumber (3 # 1));
    ("piano", JString "Amin"); ("mute", JBool false) ].

Definition parse (data : string) : Outcome Json :=
  if String.eqb data kickCmajPayload then
    Normal (JObject [("kick", JString "Cmaj")])
  else if String.eqb data mixedPayload then
    Normal (JObject mixedFields)
  else
    Thrown (SyntaxError "Unexpected token").

Definition fresh : World := mkWorld [] 0 suspended.

Definition playing : World := mkWorld [] 0 running.

End Sample.

(** ** What a computation may add to the trace *)

(** [Adds P c]: running [c] only appends events, each of them satisfying
    [P], and leaves the state of the audio context as it was. *)
Definition Adds (P : Event -> Prop) {A : Type} (c : M A) : Prop :=
  forall w, exists evs,
    trace (c w).2 = trace w ++ evs /\
    Forall P evs /\
    contextState (c w).2 = contextState w.

(** Console output, or an attack or a release on [instrument]. *)
Definition onInstrument (instrument : string) (e : Event) : bool :=
  match e with
  | Called (triggerAttackRelease _ _ _ _) => false
  | Called c => String.eqb (instrumentOf c) instrument
  | ContextCalled _ => false
  | ConsoleLog _ | ConsoleError _ _ => true
  end.

(** Console output, or an attack or a release on a key of the synth set. *)
Definition onSynthSet (synths : option (gmap string ToneClass)) (e : Event)
    : bool :=
  match e with
  | Called (triggerAttackRelease _ _ _ _) => false
  | Called c =>
      match synths with
      | Some loaded => bool_decide (is_Some (loaded !! instrumentOf c))
      | None => false
      end
  | ContextCalled _ => false
  | ConsoleLog _ | ConsoleError _ _ => true
  end.

(** The note names of the attacks among [calls], in order. *)
Definition attackNotes (calls : list Call) : list string :=
  omap (fun c => match c with
                 | triggerAttack _ note _ => Some note
                 | _ => None
                 end) calls.

Definition isDigit (c : ascii) : bool :=
  let n := nat_of_ascii c in Nat.leb 48 n && Nat.leb n 57.

Definition startsWithDigit (s : string) : bool :=
  match s with
  | String c _ => isDigit c
  | EmptyString => false
  end.

(** The last character of a name is [#] or [b]: a sharp or a flat as the
    chord table writes them. *)
Definition isAccidental (note : string) : bool :=
  match note with
  | String _ (String c EmptyString) =>
      Ascii.eqb c "#"%char || Ascii.eqb c "b"%char
  | _ => false
  end.

(** The calls made on the audio context, in order. *)
Definition contextCallsOf (tr : list Event) : list ContextCall :=
  omap (fun e => match e with ContextCalled c => Some c | _ => None end) tr.

(** A JSON value that is neither an object nor a string nor [null]. *)
Definition isPlainValue (bundle : Json) : bool :=
  match bundle with
  | JBool _ | JNumber _ | JArray _ => true
  | _ => false
  end.

(** ** Further sample payloads and platforms *)

Module Shapes.

(** The text [["Cmaj","kick"]]. *)
Definition arrayPayload : string :=
  "[" +:+ quote +:+ "Cmaj" +:+ quote +:+ ","
      +:+ quote +:+ "kick" +:+ quote +:+ "]".

(** The text [{"piano":"Fmin","kick":"Cmaj"}]. *)
Definition duoPayload : string :=
  "{" +:+ quote +:+ "piano" +:+ quote +:+ ":"
      +:+ quote +:+ "Fmin" +:+ quote +:+ ","
      +:+ quote +:+ "kick" +:+ quote +:+ ":"
      +:+ quote +:+ "Cmaj" +:+ quote +:+ "}".

Definition parse (data : string) : Outcome Json :=
  if String.eqb data "null" then Normal JNull
  else if String.eqb data arrayPayload then
    Normal (JArray [JString "Cmaj"; JString "kick"])
  else if String.eqb data duoPayload then
    Normal (JObject [("piano", JString "Fmin"); ("kick", JString "Cmaj")])
  else Sample.parse data.

(** Only the piano's methods throw. *)
Definition pianoUnloaded (tr : list Event) (c : Call) : option Error :=
  if String.eqb (instrumentOf c) "piano" then
    Some (LibraryError "buffer is either not set or not loaded")
  else None.

(** A context that closes on [close()], starts on [resume()] while it is
    suspended, and rejects [resume()] once it is closed. *)
Definition closes (s : AudioContextState) : Outcome AudioContextState :=
  Normal closed.

Definition resumes (s : AudioContextState) : Outcome AudioContextState :=
  match s with
  | closed => Thrown (LibraryError "InvalidStateError")
  | _ => Normal running
  end.

End Shapes.

(** ** Calls up to the first throw

    [attempt] is not part of the source.  It makes the calls of a list one
    after the other on top of the trace [tr], asks the platform before each
    whether the method throws, and stops at the first that does: the result
    is the trace so reached and the error, if any.
    [playInstrument_stops_at_throw] compares the dispatcher with it. *)
Fixpoint attempt (synthFault : list Event -> Call -> option Error)
    (tr : list Event) (calls : list Call) : list Event * option Error :=
  match calls with
  | [] => (tr, None)
  | c :: rest =>
      match synthFault tr c with
      | Some e => (tr ++ [Called c], Some e)
      | None => attempt synthFault (tr ++ [Called c]) rest
      end
  end.

Module Moving.


(** Methods that work three times and throw from the fourth call on. *)
Definition wearsOut (tr : list Event) (c : Call) : option Error :=
  if Nat.leb 3 (length (callsOf tr)) then
    Some (LibraryError "context is closed")
  else None.

End Moving.

(** * Properties *)

(** ** The chord resolver *)

Lemma chordMap_triads : map_Forall (fun _ notes => length notes = 3) chordMap.
Proof. apply map_Forall_to_list. vm_compute. repeat constructor. Qed.

Lemma chordToNotes_listed (chord : string) (notes : list string) :
  chordMap !! chord = Some notes ->
  chordToNotes chord = Value notes /\ length notes = 3.
Proof.
  intros Hkey. split.
  - unfold chordToNotes, get. rewrite Hkey. reflexivity.
  - exact (chordMap_triads chord notes Hkey).
Qed.

Lemma chordToNotes_unlisted (chord : string) :
  chordMap !! chord = None ->
  chordToNotes chord =
    match ObjectPrototype !! chord with
    | Some b => Builtin b
    | None => Value []
    end.
Proof.
  intros Hkey. unfold chordToNotes, get. rewrite Hkey.
  destruct (ObjectPrototype !! chord); reflexivity.
Qed.

Lemma chordToNotes_unlisted_plain (chord : string) :
  chordMap !! chord = None ->
  ObjectPrototype !! chord = None ->
  chordToNotes chord = Value [].
Proof.
  intros Hkey Hproto. rewrite (chordToNotes_unlisted _ Hkey), Hproto.
  reflexivity.
Qed.

(** C1.  Every key of the table resolves to its three notes, but a string
    that is not a key does not always resolve to the empty list: the name
    [constructor] is not a key of [chordMap], and [chordToNotes] returns the
    function that the literal inherits under that name. *)
Theorem chordToNotes_constructor :
  chordMap !! "constructor" = None /\
  chordToNotes "constructor" = Builtin (BuiltinFunction "Object") /\
  chordToNotes "constructor" <> Value [].
Proof.
  split; [| split].
  - vm_compute. reflexivity.
  - vm_compute. reflexivity.
  - vm_compute. discriminate.
Qed.

(** ** Sequencing *)

Lemma bind_assoc {A B C : Type} (c : M A) (k : A -> M B) (h : B -> M C)
    (w : World) :
  bind (bind c k) h w = bind c (fun a => bind (k a) h) w.
Proof. unfold bind. destruct (c w) as [[a | e] w1]; reflexivity. Qed.

Lemma bind_ext {A B : Type} (c : M A) (k k' : A -> M B) (w : World) :
  (forall a w1, k a w1 = k' a w1) -> bind c k w = bind c k' w.
Proof.
  intros Hk. unfold bind. destruct (c w) as [[a | e] w1]; [apply Hk | reflexivity].
Qed.

(** ** Quiet computations *)

Lemma callsOf_app (tr1 tr2 : list Event) :
  callsOf (tr1 ++ tr2) = callsOf tr1 ++ callsOf tr2.
Proof. unfold callsOf. apply omap_app. Qed.

Lemma callsOf_console (logs : list Event) :
  Forall (fun e => isConsole e = true) logs -> callsOf logs = [].
Proof.
  induction 1 as [| e logs He _ IH]; [reflexivity |].
  destruct e; try discriminate He; exact IH.
Qed.

Lemma Quiet_calls {A : Type} (c : M A) (w : World) :
  Quiet c -> callsOf (trace (c w).2) = callsOf (trace w).
Proof.
  intros Hq. destruct (Hq w) as (logs & Htr & Hlogs & _).
  rewrite Htr, callsOf_app, (callsOf_console _ Hlogs). apply app_nil_r.
Qed.

Lemma Quiet_ret {A : Type} (a : A) : Quiet (ret a).
Proof. intros w. exists []. cbn. rewrite app_nil_r. auto. Qed.

Lemma Quiet_throw {A : Type} (e : Error) : Quiet (@throw A e).
Proof. intros w. exists []. cbn. rewrite app_nil_r. auto. Qed.

Lemma Quiet_console_log (msg : string) : Quiet (console_log msg).
Proof. intros w. exists [ConsoleLog msg]. cbn. auto. Qed.

Lemma Quiet_console_error (msg : string) (err : option Error) :
  Quiet (console_error msg err).
Proof. intros w. exists [ConsoleError msg err]. cbn. auto. Qed.

Lemma Quiet_bind {A B : Type} (c : M A) (k : A -> M B) :
  Quiet c -> (forall a, Quiet (k a)) -> Quiet (bind c k).
Proof.
  intros Hc Hk w. unfold bind.
  destruct (Hc w) as (logs1 & Htr1 & Hl1 & Hs1).
  destruct (c w) as [[a | e] w1]; cbn in *.
  - destruct (Hk a w1) as (logs2 & Htr2 & Hl2 & Hs2).
    exists (logs1 ++ logs2). rewrite Htr2, Htr1, Hs2, Hs1, app_assoc.
    split; [reflexivity |]. split; [| reflexivity].
    apply Forall_app; auto.
  - exists logs1. auto.
Qed.

Lemma Quiet_tryCatch {A : Type} (body : M A) (handler : Error -> M A) :
  Quiet body -> (forall e, Quiet (handler e)) -> Quiet (tryCatch body handler).
Proof.
  intros Hb Hh w. unfold tryCatch.
  destruct (Hb w) as (logs1 & Htr1 & Hl1 & Hs1).
  destruct (body w) as [[a | e] w1]; cbn in *.
  - exists logs1. auto.
  - destruct (Hh e w1) as (logs2 & Htr2 & Hl2 & Hs2).
    exists (logs1 ++ logs2). rewrite Htr2, Htr1, Hs2, Hs1, app_assoc.
    split; [reflexivity |]. split; [| reflexivity].
    apply Forall_app; auto.
Qed.

Lemma Quiet_forEachFrom {A : Type} (f : A -> nat -> M unit) (l : list A) :
  (forall x i, Quiet (f x i)) -> forall index, Quiet (forEachFrom f l index).
Proof.
  intros Hf. induction l as [| x rest IH]; intros index; cbn.
  - apply Quiet_ret.
  - apply Quiet_bind; [apply Hf | intros _; apply IH].
Qed.

Create HintDb quiet.

#[local] Hint Resolve Quiet_ret Quiet_throw Quiet_console_log
  Quiet_console_error : quiet.

(** A [try] whose handler only logs completes normally. *)
Lemma tryCatch_logged (body : M unit) (msg : string) (w : World) :
  exists w',
    tryCatch body (fun error => console_error msg (Some error)) w
    = (Normal tt, w').
Proof.
  unfold tryCatch. destruct (body w) as [[[] | e] w1]; eauto.
Qed.

(** What the handler leaves behind when the body throws. *)
Lemma tryCatch_caught (body : M unit) (msg : string) (e : Error)
    (w w1 : World) :
  body w = (Thrown e, w1) ->
  tryCatch body (fun error => console_error msg (Some error)) w
  = (Normal tt, record (ConsoleError msg (Some e)) w1).
Proof. intros Hbody. unfold tryCatch. rewrite Hbody. reflexivity. Qed.

Section Dispatcher.

Variable Tone_now : nat -> Q.
Variable synthFault : list Event -> Call -> option Error.

Local Abbreviation playNote := (playNote Tone_now synthFault).
Local Abbreviation tryBlock := (tryBlock Tone_now synthFault).
Local Abbreviation playInstrument := (playInstrument Tone_now synthFault).

(** On a value inherited from [Object.prototype] no synthesizer method is
    ever reached: the callback ends in a [TypeError]. *)
Lemma Quiet_playNote_builtin (instrument : string) (b : BuiltinObject)
    (note : string) (index : nat) :
  Quiet (playNote instrument (Builtin b) note index).
Proof.
  intros w. exists []. unfold playNote, bind. cbn.
  rewrite app_nil_r. auto.
Qed.

Lemma Quiet_forEachNote_unlisted (chord : string)
    (callback : string -> nat -> M unit) :
  chordMap !! chord = None ->
  Quiet (forEachNote (chordToNotes chord) callback).
Proof.
  intros Hkey. rewrite (chordToNotes_unlisted _ Hkey).
  destruct (ObjectPrototype !! chord); cbn; auto with quiet.
Qed.

Lemma tryCatch_log_first (m msg : string) (rest : M unit) (w : World) :
  Quiet rest ->
  exists logs,
    trace (tryCatch (console_log m >> rest)
             (fun error => console_error msg (Some error)) w).2
    = trace w ++ ConsoleLog m :: logs /\
    Forall (fun e => isConsole e = true) logs.
Proof.
  intros Hrest. unfold tryCatch, bind, console_log.
  destruct (Hrest (record (ConsoleLog m) w)) as (logs & Htr & Hl & _).
  destruct (rest (record (ConsoleLog m) w)) as [[[] | e] w1]; cbn in *.
  - exists logs. rewrite Htr, <- app_assoc. auto.
  - exists (logs ++ [ConsoleError msg (Some e)]).
    rewrite Htr, <- !app_assoc. split; [reflexivity |].
    apply Forall_app; auto.
Qed.

(** ** The playback dispatcher: guards *)

(** C4.  With an undefined chord/note value the dispatcher only writes its
    error line to the console, whatever the instrument and whether or not
    the synths are loaded: no synthesizer method is called. *)
Theorem playInstrument_undefined_chord
    (synths : option (gmap string ToneClass)) (instrument : string)
    (w : World) :
  playInstrument synths instrument None w
  = (Normal tt, record (ConsoleError "Synths not loaded or invalid note" None) w)
  /\ callsOf (trace (playInstrument synths instrument None w).2)
     = callsOf (trace w).
Proof.
  assert (Hrun : playInstrument synths instrument None w
    = (Normal tt,
       record (ConsoleError "Synths not loaded or invalid note" None) w)).
  { unfold playInstrument. cbn. destruct synths; reflexivity. }
  split; [exact Hrun |].
  rewrite Hrun. cbn. rewrite callsOf_app. apply app_nil_r.
Qed.

(** C9.  The dispatcher completes normally for every synth state, every
    instrument name and every chord/note value, whatever the synthesizer
    methods do; and when the [try] block throws, the error is the one
    written to the console by the [catch] clause. *)
Theorem playInstrument_never_throws
    (synths : option (gmap string ToneClass)) (instrument : string)
    (chordOrNote : option string) (w : World) :
  (exists w', playInstrument synths instrument chordOrNote w = (Normal tt, w'))
  /\
  (forall loaded chord e w1,
      synths = Some loaded ->
      givenChord chordOrNote = Some chord ->
      truthy (get loaded instrument) = true ->
      tryBlock instrument (get loaded instrument) chord w = (Thrown e, w1) ->
      playInstrument synths instrument chordOrNote w
      = (Normal tt,
         record (ConsoleError
                   ("Error in playInstrument for " +:+ instrument +:+ ":")
                   (Some e)) w1)).
Proof.
  split.
  - unfold playInstrument.
    destruct (givenChord chordOrNote) as [chord |]; [| eexists; reflexivity].
    destruct synths as [loaded |]; [| eexists; reflexivity].
    cbn zeta. destruct (negb (truthy (get loaded instrument))).
    + eexists; reflexivity.
    + apply tryCatch_logged.
  - intros loaded chord e w1 -> Hchord Htruthy Hbody.
    unfold playInstrument. rewrite Hchord. cbn zeta. rewrite Htruthy.
    cbn [negb]. apply tryCatch_caught. exact Hbody.
Qed.

(** C10.  A chord/note string that is not a key of the chord table, a bare
    note name included, never reaches a synthesizer: the calls recorded in
    the trace are the same before and after, for every instrument and every
    synth state. *)
Theorem playInstrument_unlisted_chord (chord : string) :
  chordMap !! chord = None ->
  forall (synths : option (gmap string ToneClass)) (instrument : string)
         (w : World),
    callsOf (trace (playInstrument synths instrument (Some chord) w).2)
    = callsOf (trace w).
Proof.
  intros Hkey synths instrument w. apply Quiet_calls.
  unfold playInstrument.
  destruct chord as [| a s]; cbn [givenChord]; [auto with quiet |].
  destruct synths as [loaded |]; [| auto with quiet].
  cbn zeta. destruct (negb (truthy (get loaded instrument)));
    [auto with quiet |].
  apply Quiet_tryCatch; [| auto with quiet].
  unfold tryBlock. apply Quiet_bind; [auto with quiet |].
  intros _. cbn zeta. apply Quiet_forEachNote_unlisted. exact Hkey.
Qed.

(** C3.  For an instrument name that is not a key of the loaded synth set
    the dispatcher completes normally, adds nothing but console output to
    the trace (at least one line), and so makes no synthesizer call. *)
Theorem playInstrument_unknown_instrument
    (loaded : gmap string ToneClass) (instrument : string)
    (chordOrNote : option string) (w : World) :
  loaded !! instrument = None ->
  exists w' logs,
    playInstrument (Some loaded) instrument chordOrNote w = (Normal tt, w') /\
    trace w' = trace w ++ logs /\
    logs <> [] /\
    Forall (fun e => isConsole e = true) logs /\
    callsOf (trace w') = callsOf (trace w).
Proof.
  intros Hkey.
  assert (Hshape : exists w' logs,
    playInstrument (Some loaded) instrument chordOrNote w = (Normal tt, w') /\
    trace w' = trace w ++ logs /\ logs <> [] /\
    Forall (fun e => isConsole e = true) logs).
  { unfold playInstrument.
    destruct (givenChord chordOrNote) as [chord |].
    - unfold get. rewrite Hkey.
      destruct (ObjectPrototype !! instrument) as [b |]; cbn [truthy negb].
      + match goal with
        | |- context [tryCatch ?body ?h w] =>
            destruct (tryCatch_logged body
              ("Error in playInstrument for " +:+ instrument +:+ ":") w)
              as (w' & Hrun)
        end.
        destruct (tryCatch_log_first
          ("Playing " +:+ instrument +:+ " notes " +:+ chord)
          ("Error in playInstrument for " +:+ instrument +:+ ":")
          (forEachNote (chordToNotes chord)
             (playNote instrument (Builtin b))) w) as (logs & Htr & Hl).
        { destruct (chordToNotes chord); cbn; auto with quiet.
          apply Quiet_forEachFrom. intros x i.
          apply Quiet_playNote_builtin. }
        exists w', (ConsoleLog ("Playing " +:+ instrument +:+ " notes " +:+ chord)
                      :: logs).
        split; [exact Hrun |].
        unfold tryBlock in Hrun. cbn zeta in Hrun.
        rewrite Hrun in Htr. cbn in Htr.
        split; [exact Htr |]. split; [discriminate |].
        constructor; auto.
      + eexists _, [_]. split; [reflexivity |]. cbn.
        split; [reflexivity |]. split; [discriminate |]. auto.
    - eexists _, [_]. split; [reflexivity |]. cbn.
      split; [reflexivity |]. split; [discriminate |]. auto. }
  destruct Hshape as (w' & logs & Hrun & Htr & Hne & Hl).
  exists w', logs. repeat split; auto.
  rewrite Htr, callsOf_app, (callsOf_console _ Hl). apply app_nil_r.
Qed.

End Dispatcher.

Lemma attackNotes_app (calls1 calls2 : list Call) :
  attackNotes (calls1 ++ calls2) = attackNotes calls1 ++ attackNotes calls2.
Proof. unfold attackNotes. apply omap_app. Qed.

Lemma scheduled_attackNotes (Tone_now : nat -> Q) (instrument : string)
    (cls : ToneClass) (notes : list string) (index reads : nat) :
  attackNotes (scheduled Tone_now instrument cls notes index reads)
  = map noteWithOctave notes.
Proof.
  revert index reads. induction notes as [| note rest IH]; intros index reads.
  - reflexivity.
  - cbn [scheduled map]. rewrite attackNotes_app, IH.
    destruct cls; reflexivity.
Qed.

Lemma callsOf_Called (calls : list Call) : callsOf (map Called calls) = calls.
Proof.
  induction calls as [| c rest IH]; [reflexivity |].
  cbn. unfold callsOf in IH. rewrite IH. reflexivity.
Qed.

(** ** The playback dispatcher: scheduling *)

Section Scheduling.

Variable Tone_now : nat -> Q.
Variable synthFault : list Event -> Call -> option Error.

Local Abbreviation playNote := (playNote Tone_now synthFault).
Local Abbreviation playInstrument := (playInstrument Tone_now synthFault).
Local Abbreviation scheduled := (scheduled Tone_now).

Lemma playNote_scheduled (instrument : string) (cls : ToneClass)
    (note : string) (index : nat) (w : World) :
  (forall tr c, instrumentOf c = instrument -> synthFault tr c = None) ->
  playNote instrument (Value cls) note index w
  = (Normal tt,
     mkWorld
       (trace w ++ map Called
          (noteCalls instrument cls note
             (startTimeAt (Tone_now (clockReads w)) index)))
       (S (clockReads w)) (contextState w)).
Proof.
  intros Hok. unfold playNote, bind, noteCalls.
  destruct cls; cbn; rewrite !Hok by reflexivity;
    unfold record; cbn [trace clockReads contextState];
    rewrite <- app_assoc; reflexivity.
Qed.

Lemma forEachFrom_scheduled (instrument : string) (cls : ToneClass)
    (notes : list string) :
  (forall tr c, instrumentOf c = instrument -> synthFault tr c = None) ->
  forall (index : nat) (w : World),
    forEachFrom (playNote instrument (Value cls)) notes index w
    = (Normal tt,
       mkWorld
         (trace w ++ map Called
            (scheduled instrument cls notes index (clockReads w)))
         (length notes + clockReads w) (contextState w)).
Proof.
  intros Hok. induction notes as [| note rest IH]; intros index w.
  - cbn. rewrite app_nil_r. destruct w; reflexivity.
  - cbn [forEachFrom scheduled length]. unfold bind at 1.
    rewrite (playNote_scheduled _ _ _ _ _ Hok), IH. cbn [trace clockReads contextState].
    rewrite map_app, app_assoc, Nat.add_succ_r. reflexivity.
Qed.

(** A listed chord on a loaded instrument whose methods do not throw: one
    console line, then the schedule of the chord's notes. *)
Lemma playInstrument_scheduled (loaded : gmap string ToneClass)
    (instrument chord : string) (cls : ToneClass) (notes : list string)
    (w : World) :
  loaded !! instrument = Some cls ->
  chordMap !! chord = Some notes ->
  (forall tr c, instrumentOf c = instrument -> synthFault tr c = None) ->
  playInstrument (Some loaded) instrument (Some chord) w
  = (Normal tt,
     mkWorld
       (trace w ++
          ConsoleLog ("Playing " +:+ instrument +:+ " notes " +:+ chord)
          :: map Called (scheduled instrument cls notes 0 (clockReads w)))
       (length notes + clockReads w) (contextState w)).
Proof.
  intros Hsynth Hchord Hok.
  assert (Hgiven : givenChord (Some chord) = Some chord).
  { destruct chord; [| reflexivity]. vm_compute in Hchord. discriminate. }
  unfold playInstrument. rewrite Hgiven. unfold get at 1 2. rewrite Hsynth.
  cbn [truthy negb]. unfold tryCatch, tryBlock, bind at 1, console_log.
  destruct (chordToNotes_listed _ _ Hchord) as [-> _]. cbn [forEachNote].
  rewrite (forEachFrom_scheduled _ _ _ Hok). cbn [record trace clockReads contextState].
  rewrite <- app_assoc. reflexivity.
Qed.

(** ** Octave normalisation *)

Lemma noteWithOctave_single (note : string) :
  String.length note = 1 -> noteWithOctave note = note +:+ "4".
Proof. intros Hlen. unfold noteWithOctave. rewrite Hlen. reflexivity. Qed.

Lemma noteWithOctave_other (note : string) :
  String.length note <> 1 -> noteWithOctave note = note.
Proof.
  intros Hlen. unfold noteWithOctave.
  destruct (Nat.eqb_spec (String.length note) 1); [contradiction | reflexivity].
Qed.

(** Whatever the synthesizer is and whether or not its methods throw, the
    calls made for a note all carry the normalised name. *)
Lemma playNote_calls_named (instrument : string) (synth : Fetched ToneClass)
    (note : string) (index : nat) (w : World) :
  exists calls,
    callsOf (trace (playNote instrument synth note index w).2)
    = callsOf (trace w) ++ calls /\
    Forall (fun c => noteOf c = None \/ noteOf c = Some (noteWithOctave note))
      calls.
Proof.
  destruct synth as [cls | b |]; [destruct cls | |];
    unfold playNote, bind; cbn;
    repeat (match goal with
            | |- context [synthFault ?t ?c] => destruct (synthFault t c)
            end; cbn);
    unfold record; cbn [trace]; rewrite ?callsOf_app, <- ?app_assoc;
    first [ exists []; rewrite app_nil_r; split; [reflexivity | constructor]
          | eexists; split;
            [ reflexivity
            | cbn;
              repeat match goal with
                     | |- Forall _ _ => constructor
                     | |- _ \/ _ => cbn; auto
                     end ] ].
Qed.

(** On an instrument object the attack is always made, whether or not it
    then throws, and it is made with the normalised name at the start time
    of the note. *)
Lemma playNote_attacks (instrument : string) (cls : ToneClass)
    (note : string) (index : nat) (w : World) :
  exists rest,
    callsOf (trace (playNote instrument (Value cls) note index w).2)
    = callsOf (trace w)
      ++ triggerAttack instrument (noteWithOctave note)
           (startTimeAt (Tone_now (clockReads w)) index)
         :: rest /\
    Forall (fun c => noteOf c = None \/ noteOf c = Some (noteWithOctave note))
      rest.
Proof.
  destruct cls; unfold playNote, bind; cbn;
    repeat (match goal with
            | |- context [synthFault ?t ?c] => destruct (synthFault t c)
            end; cbn);
    unfold record; cbn [trace]; rewrite ?callsOf_app, <- ?app_assoc;
    eexists; (split;
      [ reflexivity
      | cbn;
        repeat match goal with
               | |- Forall _ _ => constructor
               | |- _ \/ _ => cbn; auto
               end ]).
Qed.

(** C5.  A one-character note name gets the octave [4] appended and a
    longer one is left as it is.  The name so obtained is the one that
    reaches the synthesizer: on every instrument object the callback of one
    note attacks with it, at the start time of the note and whether or not
    a method throws, and no call for that note, on any synthesizer value,
    carries another name. *)
Theorem playNote_normalises (single multi : string) :
  String.length single = 1 ->
  1 < String.length multi ->
  noteWithOctave single = single +:+ "4" /\
  noteWithOctave multi = multi /\
  (forall (instrument : string) (cls : ToneClass) (index : nat) (w : World),
    (exists rest,
        callsOf (trace (playNote instrument (Value cls) single index w).2)
        = callsOf (trace w)
          ++ triggerAttack instrument (single +:+ "4")
               (startTimeAt (Tone_now (clockReads w)) index)
             :: rest /\
        Forall (fun c => noteOf c = None \/ noteOf c = Some (single +:+ "4"))
          rest) /\
    (exists rest,
        callsOf (trace (playNote instrument (Value cls) multi index w).2)
        = callsOf (trace w)
          ++ triggerAttack instrument multi
               (startTimeAt (Tone_now (clockReads w)) index)
             :: rest /\
        Forall (fun c => noteOf c = None \/ noteOf c = Some multi) rest)) /\
  (forall (instrument : string) (synth : Fetched ToneClass) (index : nat)
          (w : World),
    (exists calls,
        callsOf (trace (playNote instrument synth single index w).2)
        = callsOf (trace w) ++ calls /\
        Forall (fun c => noteOf c = None \/ noteOf c = Some (single +:+ "4"))
          calls) /\
    (exists calls,
        callsOf (trace (playNote instrument synth multi index w).2)
        = callsOf (trace w) ++ calls /\
        Forall (fun c => noteOf c = None \/ noteOf c = Some multi) calls)) /\
  forall (loaded : gmap string ToneClass) (instrument chord : string)
         (cls : ToneClass) (notes : list string) (w : World),
    loaded !! instrument = Some cls ->
    chordMap !! chord = Some notes ->
    (forall tr c, instrumentOf c = instrument -> synthFault tr c = None) ->
    attackNotes
      (callsOf (trace (playInstrument (Some loaded) instrument (Some chord) w).2))
    = attackNotes (callsOf (trace w)) ++ map noteWithOctave notes.
Proof.
  intros Hsingle Hmulti.
  assert (H1 : noteWithOctave single = single +:+ "4")
    by (apply noteWithOctave_single; exact Hsingle).
  assert (H2 : noteWithOctave multi = multi)
    by (apply noteWithOctave_other; lia).
  split; [exact H1 |]. split; [exact H2 |]. split; [| split].
  - intros instrument cls index w. split.
    + destruct (playNote_attacks instrument cls single index w)
        as (rest & Hcalls & Hnamed).
      rewrite H1 in Hcalls, Hnamed. exists rest. split; assumption.
    + destruct (playNote_attacks instrument cls multi index w)
        as (rest & Hcalls & Hnamed).
      rewrite H2 in Hcalls, Hnamed. exists rest. split; assumption.
  - intros instrument synth index w. split.
    + destruct (playNote_calls_named instrument synth single index w)
        as (calls & Hcalls & Hnamed).
      rewrite H1 in Hnamed. exists calls. split; assumption.
    + destruct (playNote_calls_named instrument synth multi index w)
        as (calls & Hcalls & Hnamed).
      rewrite H2 in Hnamed. exists calls. split; assumption.
  - intros loaded instrument chord cls notes w Hsynth Hchord Hok.
    rewrite (playInstrument_scheduled loaded instrument chord cls notes w
               Hsynth Hchord Hok).
    cbn [snd trace]. rewrite callsOf_app, attackNotes_app. f_equal.
    change (callsOf (ConsoleLog ("Playing " +:+ instrument +:+ " notes " +:+ chord)
                     :: map Called (scheduled instrument cls notes 0 (clockReads w))))
      with (callsOf (map Called (scheduled instrument cls notes 0 (clockReads w)))).
    rewrite callsOf_Called. apply scheduled_attackNotes.
Qed.

End Scheduling.

(** ** The socket message handler *)

Lemma stringFields_elem (fields : list (string * Json))
    (instrument chord : string) :
  (instrument, chord) ∈ stringFields fields <->
  (instrument, JString chord) ∈ fields.
Proof.
  unfold stringFields. rewrite list_elem_of_omap. split.
  - intros ([k v] & Hin & Hsome). cbn in Hsome.
    destruct v; try discriminate. injection Hsome as -> ->. exact Hin.
  - intros Hin. exists (instrument, JString chord). auto.
Qed.

Section Handler.

Variable Tone_now : nat -> Q.
Variable synthFault : list Event -> Call -> option Error.
Variable JSON_parse : string -> Outcome Json.

Local Abbreviation playInstrument := (playInstrument Tone_now synthFault).
Local Abbreviation onMessageVia := (onMessageVia JSON_parse).
Local Abbreviation onMessage := (onMessage Tone_now synthFault JSON_parse).

Lemma mapM_dispatch (dispatch : string -> option string -> M unit)
    (fields : list (string * Json)) (w : World) :
  (mapM (fun entry : string * Json =>
           let '(instrument, chord) := entry in
           match chord with
           | JString chord => dispatch instrument (Some chord)
           | _ => ret tt
           end)
        fields >> ret tt) w
  = dispatchEach dispatch (stringFields fields) w.
Proof.
  revert w. induction fields as [| [instrument value] rest IH]; intros w.
  - reflexivity.
  - cbn [mapM].
    assert (Hskip : forall w1,
      ((do ys <- mapM (fun entry : string * Json =>
                         let '(instrument, chord) := entry in
                         match chord with
                         | JString chord => dispatch instrument (Some chord)
                         | _ => ret tt
                         end) rest; ret (tt :: ys)) >> ret tt) w1
      = dispatchEach dispatch (stringFields rest) w1).
    { intros w1. rewrite <- IH. unfold bind, ret.
      destruct (mapM _ rest w1) as [[ys | e] w2]; reflexivity. }
    destruct value; cbn [stringFields omap snd fst dispatchEach];
      try (rewrite <- Hskip; reflexivity).
    change (stringFields ((instrument, JString s) :: rest))
      with ((instrument, s) :: stringFields rest).
    cbn [dispatchEach]. rewrite bind_assoc. apply bind_ext.
    intros [] w1. apply Hskip.
Qed.

Lemma onMessageVia_object (data : string) (fields : list (string * Json))
    (dispatch : string -> option string -> M unit) (w : World) :
  JSON_parse data = Normal (JObject fields) ->
  onMessageVia dispatch data w
  = dispatchEach dispatch (stringFields fields) w.
Proof.
  intros Hparse. unfold onMessageVia.
  unfold bind at 1. rewrite Hparse. unfold bind at 1. cbn [Object_entries ret].
  apply mapM_dispatch.
Qed.

(** C6.  When the payload parses as a JSON object, handling it is exactly
    calling the dispatcher once for each string-valued field, in enumeration
    order, with the field's key as instrument and its value as chord; the
    other fields cause no call.  This holds for every dispatcher, so in
    particular for [playInstrument]. *)
Theorem onMessage_dispatches (data : string) (fields : list (string * Json)) :
  JSON_parse data = Normal (JObject fields) ->
  forall (dispatch : string -> option string -> M unit)
         (synths : option (gmap string ToneClass)) (w : World),
    onMessageVia dispatch data w
    = dispatchEach dispatch (stringFields fields) w
    /\ onMessage synths data w
       = dispatchEach (playInstrument synths) (stringFields fields) w.
Proof.
  intros Hparse dispatch synths w. split.
  - apply onMessageVia_object. exact Hparse.
  - unfold onMessage. apply onMessageVia_object. exact Hparse.
Qed.

(** C7.  When [JSON.parse] throws on the payload, the handler ends with
    that very error and has done nothing else: no clause of the component
    catches it.  (The handler is an [async] function, so the error surfaces
    as the rejection of the promise it returns; the listener registration
    attaches no rejection handler.) *)
Theorem onMessage_invalid_json (synths : option (gmap string ToneClass))
    (data : string) (e : Error) (w : World) :
  JSON_parse data = Thrown e ->
  onMessage synths data w = (Thrown e, w).
Proof.
  intros Hparse. unfold onMessage, onMessageVia, bind.
  rewrite Hparse. reflexivity.
Qed.



End Handler.

(** ** Audio context buttons *)

Section AudioContext.

Variable platformResume : AudioContextState -> Outcome AudioContextState.
Variable platformClose : AudioContextState -> Outcome AudioContextState.

(** C8.  Pressing Play while the context is running, and pressing Pause
    while it is not, change nothing: no [resume()] or [close()] call is
    made, nothing is logged, and the context keeps its state. *)
Theorem audio_buttons_noop (started idle : World) :
  contextState started = running ->
  contextState idle <> running ->
  handleStartAudio platformResume started = (Normal tt, started) /\
  handleStopAudio platformClose idle = (Normal tt, idle).
Proof.
  intros Hrunning Hidle. split.
  - unfold handleStartAudio. rewrite Hrunning. reflexivity.
  - unfold handleStopAudio.
    destruct (contextState idle); [reflexivity | contradiction | reflexivity].
Qed.

(** Conversely, each button does reach the context in the other states. *)
Lemma handleStartAudio_resumes (w : World) :
  contextState w <> running ->
  exists rest,
    trace (handleStartAudio platformResume w).2
    = trace w ++ ContextCalled resume :: rest.
Proof.
  intros Hstate. unfold handleStartAudio, tryCatch, bind, contextCall.
  destruct (contextState w) eqn:Hs; [| contradiction |]; cbn;
    destruct (platformResume _); cbn; rewrite <- !app_assoc; eauto.
Qed.

Lemma handleStopAudio_closes (w : World) :
  contextState w = running ->
  exists rest,
    trace (handleStopAudio platformClose w).2
    = trace w ++ ContextCalled close :: rest.
Proof.
  intros Hstate. unfold handleStopAudio, tryCatch, bind, contextCall.
  rewrite Hstate. cbn.
  destruct (platformClose _); cbn; rewrite <- !app_assoc; eauto.
Qed.

End AudioContext.

(** * Concrete runs *)

Example chordToNotes_Cmaj : chordToNotes "Cmaj" = Value ["C"; "E"; "G"].
Proof. vm_compute. reflexivity. Qed.

Example chordToNotes_bare_note : chordToNotes "C" = Value [].
Proof. vm_compute. reflexivity. Qed.

(** An unloaded piano: the first attack throws, the error is logged, and
    the remaining notes are not attempted. *)
Example playInstrument_unloaded_piano :
  playInstrument Sample.clock Sample.unloaded (Some loadedSynths)
    "piano" (Some "Fmin") Sample.fresh
  = (Normal tt,
     mkWorld
       [ ConsoleLog "Playing piano notes Fmin";
         Called (triggerAttack "piano" "F4" (startTimeAt (2 # 1) 0));
         ConsoleError "Error in playInstrument for piano:"
           (Some (LibraryError "buffer is either not set or not loaded")) ]
       1 suspended).
Proof. vm_compute. reflexivity. Qed.

(** An inherited name used as instrument passes the [!synth] guard and
    fails inside the [try] block. *)
Example playInstrument_toString :
  playInstrument Sample.clock Sample.sound (Some loadedSynths)
    "toString" (Some "Cmaj") Sample.fresh
  = (Normal tt,
     mkWorld
       [ ConsoleLog "Playing toString notes Cmaj";
         ConsoleError "Error in playInstrument for toString:"
           (Some (TypeError "synth.triggerAttackRelease is not a function")) ]
       1 suspended).
Proof. vm_compute. reflexivity. Qed.

(** A dispatcher that only notes down how it was called sees one call per
    string-valued field, in order, and none for the number and the
    boolean. *)
Example onMessageVia_recorded :
  onMessageVia Sample.parse
    (fun instrument chord =>
       console_log (instrument +:+ "=" +:+ default "undefined" chord))
    Sample.mixedPayload Sample.fresh
  = (Normal tt,
     mkWorld [ConsoleLog "kick=Cmaj"; ConsoleLog "piano=Amin"] 0 suspended).
Proof. vm_compute. reflexivity. Qed.

(** A string payload is enumerated character by character, and [null]
    cannot be enumerated at all. *)
Example Object_entries_string :
  Object_entries (JString "ab") Sample.fresh
  = (Normal [("0", JString "a"); ("1", JString "b")], Sample.fresh).
Proof. vm_compute. reflexivity. Qed.



Lemma playInstrument_unknown_instrument_witness :
  loadedSynths !! "banjo" = None /\
  exists w' logs,
    playInstrument Sample.clock Sample.sound (Some loadedSynths) "banjo"
      (Some "Cmaj") Sample.fresh = (Normal tt, w') /\
    trace w' = trace Sample.fresh ++ logs /\
    logs <> [] /\
    Forall (fun e => isConsole e = true) logs /\
    callsOf (trace w') = callsOf (trace Sample.fresh).
Proof.
  split; [vm_compute; reflexivity |].
  apply (playInstrument_unknown_instrument Sample.clock Sample.sound
           loadedSynths "banjo" (Some "Cmaj") Sample.fresh).
  vm_compute. reflexivity.
Defined.

Lemma playNote_normalises_witness :
  noteWithOctave "C" = "C4" /\ noteWithOctave "C#" = "C#" /\
  (exists rest,
      callsOf
        (trace (playNote Sample.clock Sample.sound "kick"
                  (Value MembraneSynth) "C" 0 Sample.fresh).2)
      = callsOf (trace Sample.fresh)
        ++ triggerAttack "kick" "C4" (startTimeAt (2 # 1) 0) :: rest /\
      Forall (fun c => noteOf c = None \/ noteOf c = Some "C4") rest) /\
  (exists rest,
      callsOf
        (trace (playNote Sample.clock Sample.sound "kick"
                  (Value MembraneSynth) "C#" 0 Sample.fresh).2)
      = callsOf (trace Sample.fresh)
        ++ triggerAttack "kick" "C#" (startTimeAt (2 # 1) 0) :: rest /\
      Forall (fun c => noteOf c = None \/ noteOf c = Some "C#") rest) /\
  attackNotes
    (callsOf
       (trace (playInstrument Sample.clock Sample.sound (Some loadedSynths)
                 "piano" (Some "Bmaj") Sample.fresh).2))
  = attackNotes (callsOf (trace Sample.fresh))
    ++ map noteWithOctave ["B"; "D#"; "F#"].
Proof.
  destruct (playNote_normalises Sample.clock Sample.sound "C" "C#")
    as (Hsingle & Hmulti & Hattack & _ & Hchord).
  - reflexivity.
  - cbn. lia.
  - split; [exact Hsingle |]. split; [exact Hmulti |].
    split; [exact (proj1 (Hattack "kick" MembraneSynth 0 Sample.fresh)) |].
    split; [exact (proj2 (Hattack "kick" MembraneSynth 0 Sample.fresh)) |].
    apply (Hchord loadedSynths "piano" "Bmaj" Sampler ["B"; "D#"; "F#"]
             Sample.fresh).
    + vm_compute. reflexivity.
    + vm_compute. reflexivity.
    + intros tr c _. reflexivity.
Defined.

Lemma onMessage_dispatches_witness :
  Sample.parse Sample.mixedPayload = Normal (JObject Sample.mixedFields) /\
  stringFields Sample.mixedFields = [("kick", "Cmaj"); ("piano", "Amin")] /\
  onMessage Sample.clock Sample.sound Sample.parse (Some loadedSynths)
    Sample.mixedPayload Sample.fresh
  = dispatchEach
      (playInstrument Sample.clock Sample.sound (Some loadedSynths))
      [("kick", "Cmaj"); ("piano", "Amin")] Sample.fresh.
Proof.
  split; [vm_compute; reflexivity |]. split; [reflexivity |].
  apply (onMessage_dispatches Sample.clock Sample.sound Sample.parse
           Sample.mixedPayload Sample.mixedFields);
    [vm_compute; reflexivity | exact (fun _ _ => ret tt)].
Defined.

Lemma onMessage_invalid_json_witness :
  Sample.parse "{kick:" = Thrown (SyntaxError "Unexpected token") /\
  onMessage Sample.clock Sample.sound Sample.parse (Some loadedSynths)
    "{kick:" Sample.fresh
  = (Thrown (SyntaxError "Unexpected token"), Sample.fresh).
Proof.
  split; [vm_compute; reflexivity |].
  apply (onMessage_invalid_json Sample.clock Sample.sound Sample.parse).
  vm_compute. reflexivity.
Defined.

Lemma audio_buttons_noop_witness :
  handleStartAudio (fun _ => Normal running) Sample.playing
  = (Normal tt, Sample.playing) /\
  handleStopAudio (fun _ => Normal closed) Sample.fresh
  = (Normal tt, Sample.fresh).
Proof.
  apply (audio_buttons_noop (fun _ => Normal running)
           (fun _ => Normal closed) Sample.playing Sample.fresh).
  - reflexivity.
  - discriminate.
Defined.

Lemma playInstrument_unlisted_chord_witness :
  chordMap !! "C#" = None /\
  callsOf
    (trace (playInstrument Sample.clock Sample.sound (Some loadedSynths)
              "piano" (Some "C#") Sample.fresh).2)
  = [].
Proof.
  split; [vm_compute; reflexivity |].
  apply (playInstrument_unlisted_chord Sample.clock Sample.sound "C#").
  vm_compute. reflexivity.
Defined.


(** * Further properties *)

(** ** What may be added to the trace *)

Lemma Adds_weaken {A : Type} (P R : Event -> Prop) (c : M A) :
  (forall e, P e -> R e) -> Adds P c -> Adds R c.
Proof.
  intros Himp Hc w. destruct (Hc w) as (evs & Htr & Hevs & Hctx).
  exists evs. split; [exact Htr |]. split; [| exact Hctx].
  eapply Forall_impl; eauto.
Qed.

Lemma Adds_nothing {A : Type} (P : Event -> Prop) (c : M A) :
  (forall w, trace (c w).2 = trace w /\ contextState (c w).2 = contextState w) ->
  Adds P c.
Proof.
  intros Hc w. destruct (Hc w) as [Htr Hctx]. exists [].
  rewrite Htr, app_nil_r. auto.
Qed.

Lemma Adds_one {A : Type} (P : Event -> Prop) (c : M A) (e : Event) :
  P e -> (forall w, (c w).2 = record e w) -> Adds P c.
Proof.
  intros He Hc w. exists [e]. rewrite Hc. cbn. auto.
Qed.

Lemma Adds_bind {A B : Type} (P : Event -> Prop) (c : M A) (k : A -> M B) :
  Adds P c -> (forall a, Adds P (k a)) -> Adds P (bind c k).
Proof.
  intros Hc Hk w. unfold bind.
  destruct (Hc w) as (evs1 & Htr1 & Hl1 & Hs1).
  destruct (c w) as [[a | e] w1]; cbn in *.
  - destruct (Hk a w1) as (evs2 & Htr2 & Hl2 & Hs2).
    exists (evs1 ++ evs2). rewrite Htr2, Htr1, Hs2, Hs1, app_assoc.
    split; [reflexivity |]. split; [| reflexivity].
    apply Forall_app; auto.
  - exists evs1. auto.
Qed.

Lemma Adds_tryCatch {A : Type} (P : Event -> Prop) (body : M A)
    (handler : Error -> M A) :
  Adds P body -> (forall e, Adds P (handler e)) -> Adds P (tryCatch body handler).
Proof.
  intros Hb Hh w. unfold tryCatch.
  destruct (Hb w) as (evs1 & Htr1 & Hl1 & Hs1).
  destruct (body w) as [[a | e] w1]; cbn in *.
  - exists evs1. auto.
  - destruct (Hh e w1) as (evs2 & Htr2 & Hl2 & Hs2).
    exists (evs1 ++ evs2). rewrite Htr2, Htr1, Hs2, Hs1, app_assoc.
    split; [reflexivity |]. split; [| reflexivity].
    apply Forall_app; auto.
Qed.

Lemma Adds_forEachFrom {A : Type} (P : Event -> Prop)
    (f : A -> nat -> M unit) (l : list A) :
  (forall x i, Adds P (f x i)) -> forall index, Adds P (forEachFrom f l index).
Proof.
  intros Hf. induction l as [| x rest IH]; intros index; cbn.
  - apply Adds_nothing. auto.
  - apply Adds_bind; [apply Hf | intros _; apply IH].
Qed.

Lemma Adds_mapM {A B : Type} (P : Event -> Prop) (f : A -> M B)
    (l : list A) :
  (forall x, Adds P (f x)) -> Adds P (mapM f l).
Proof.
  intros Hf. induction l as [| x rest IH]; cbn.
  - apply Adds_nothing. auto.
  - apply Adds_bind; [apply Hf |]. intros y.
    apply Adds_bind; [exact IH |]. intros ys. apply Adds_nothing. auto.
Qed.

Lemma Adds_console_log (P : Event -> Prop) (msg : string) :
  P (ConsoleLog msg) -> Adds P (console_log msg).
Proof. intros HP. apply (Adds_one P _ (ConsoleLog msg)); auto. Qed.

Lemma Adds_console_error (P : Event -> Prop) (msg : string)
    (err : option Error) :
  P (ConsoleError msg err) -> Adds P (console_error msg err).
Proof. intros HP. apply (Adds_one P _ (ConsoleError msg err)); auto. Qed.

Lemma Adds_throw {A : Type} (P : Event -> Prop) (e : Error) :
  Adds P (@throw A e).
Proof. apply Adds_nothing. auto. Qed.

Lemma Quiet_Adds {A : Type} (P : Event -> Prop) (c : M A) :
  (forall e, isConsole e = true -> P e) -> Quiet c -> Adds P c.
Proof. intros Himp Hq. exact (Adds_weaken _ _ c Himp Hq). Qed.

Section DispatcherInvariants.

Variable Tone_now : nat -> Q.
Variable synthFault : list Event -> Call -> option Error.

Local Abbreviation playNote := (playNote Tone_now synthFault).
Local Abbreviation tryBlock := (tryBlock Tone_now synthFault).
Local Abbreviation playInstrument := (playInstrument Tone_now synthFault).

Lemma playNote_adds (instrument : string) (synth : Fetched ToneClass)
    (note : string) (index : nat) :
  Adds (fun e => onInstrument instrument e = true)
    (playNote instrument synth note index).
Proof.
  intros w.
  destruct synth as [cls | b |]; [destruct cls | |];
    unfold playNote, bind; cbn;
    repeat (match goal with
            | |- context [synthFault ?t ?c] => destruct (synthFault t c)
            end; cbn);
    unfold record; cbn [trace contextState]; rewrite <- ?app_assoc;
    first [ exists []; rewrite app_nil_r;
            split; [reflexivity | split; [constructor | reflexivity]]
          | eexists; split;
            [ reflexivity
            | split;
              [ repeat constructor; cbn; apply String.eqb_refl
              | reflexivity ] ] ].
Qed.

Lemma playInstrument_adds (synths : option (gmap string ToneClass))
    (instrument : string) (chordOrNote : option string) :
  Adds (fun e => onInstrument instrument e = true)
    (playInstrument synths instrument chordOrNote).
Proof.
  unfold playInstrument.
  destruct (givenChord chordOrNote) as [chord |];
    [| apply Adds_console_error; reflexivity].
  destruct synths as [loaded |]; [| apply Adds_console_error; reflexivity].
  cbn zeta. destruct (negb (truthy (get loaded instrument)));
    [apply Adds_console_error; reflexivity |].
  apply Adds_tryCatch; [| intros e; apply Adds_console_error; reflexivity].
  unfold tryBlock. apply Adds_bind; [apply Adds_console_log; reflexivity |].
  intros _. cbn zeta. destruct (chordToNotes chord) as [notes | b |]; cbn.
  - apply Adds_forEachFrom. intros x i. apply playNote_adds.
  - apply Adds_throw.
  - apply Adds_throw.
Qed.

(** X1.  Whatever its arguments and whatever the synthesizers do, the
    dispatcher only appends to the trace, and what it appends is console
    output and attacks and releases on the instrument it was called for.
    It never calls [triggerAttackRelease] (so the durations of [timeTable]
    are never used), never another instrument, and never the audio
    context, whose state it leaves as it was. *)
Theorem playInstrument_only_its_instrument
    (synths : option (gmap string ToneClass)) (instrument : string)
    (chordOrNote : option string) (w : World) :
  exists evs,
    trace (playInstrument synths instrument chordOrNote w).2 = trace w ++ evs /\
    Forall (fun e => onInstrument instrument e = true) evs /\
    contextState (playInstrument synths instrument chordOrNote w).2
    = contextState w.
Proof. apply playInstrument_adds. Qed.

End DispatcherInvariants.

(** ** The schedule of a chord *)

Section Schedule.

Variable Tone_now : nat -> Q.
Variable synthFault : list Event -> Call -> option Error.

Local Abbreviation playNote := (playNote Tone_now synthFault).
Local Abbreviation tryBlock := (tryBlock Tone_now synthFault).
Local Abbreviation playInstrument := (playInstrument Tone_now synthFault).

Lemma scheduled_length (instrument : string) (cls : ToneClass)
    (notes : list string) (index reads : nat) :
  length (scheduled Tone_now instrument cls notes index reads) = 2 * length notes.
Proof.
  revert index reads. induction notes as [| note rest IH]; intros index reads.
  - reflexivity.
  - cbn [scheduled length]. rewrite length_app, IH.
    destruct cls; cbn; lia.
Qed.

(** One note on an instrument object, whatever its methods do: either both
    calls are made, or the callback throws after the first or the second. *)
Lemma playNote_outcome (instrument : string) (cls : ToneClass)
    (note : string) (index : nat) (w : World) :
  exists calls,
    trace (playNote instrument (Value cls) note index w).2
    = trace w ++ map Called calls /\
    clockReads (playNote instrument (Value cls) note index w).2
    = S (clockReads w) /\
    calls <> [] /\
    calls `prefix_of`
      noteCalls instrument cls note
        (startTimeAt (Tone_now (clockReads w)) index) /\
    ((playNote instrument (Value cls) note index w).1 = Normal tt ->
     calls = noteCalls instrument cls note
               (startTimeAt (Tone_now (clockReads w)) index)).
Proof.
  destruct cls; unfold playNote, bind, noteCalls; cbn;
    repeat (match goal with
            | |- context [synthFault ?t ?c] => destruct (synthFault t c)
            end; cbn);
    unfold record; cbn [trace clockReads]; rewrite <- ?app_assoc;
    first
      [ eexists [_; _]; split; [reflexivity |]; split; [reflexivity |];
        split; [discriminate |]; split; [reflexivity | reflexivity]
      | eexists [_]; split; [reflexivity |]; split; [reflexivity |];
        split; [discriminate |];
        split; [eexists [_]; reflexivity | discriminate] ].
Qed.

Lemma forEachFrom_outcome (instrument : string) (cls : ToneClass)
    (notes : list string) :
  forall (index : nat) (w : World),
  exists calls,
    trace (forEachFrom (playNote instrument (Value cls)) notes index w).2
    = trace w ++ map Called calls /\
    (notes <> [] -> calls <> []) /\
    calls `prefix_of` scheduled Tone_now instrument cls notes index (clockReads w).
Proof.
  induction notes as [| note rest IH]; intros index w.
  - exists []. cbn. rewrite app_nil_r. repeat split; [congruence |].
    apply prefix_nil.
  - cbn [forEachFrom scheduled]. unfold bind.
    destruct (playNote_outcome instrument cls note index w)
      as (calls & Htr & Hclock & Hne & Hpre & Hall).
    destruct (playNote instrument (Value cls) note index w)
      as [[[] | e] w1]; cbn [fst snd] in *.
    + rewrite (Hall eq_refl) in *.
      destruct (IH (S index) w1) as (more & Htr' & _ & Hpre').
      exists (noteCalls instrument cls note
                (startTimeAt (Tone_now (clockReads w)) index) ++ more).
      rewrite Htr', Htr, map_app, app_assoc. split; [reflexivity |].
      split.
      * intros _ Happ. apply app_eq_nil in Happ. tauto.
      * rewrite Hclock in Hpre'. apply prefix_app. exact Hpre'.
    + exists calls. split; [exact Htr |]. split; [auto |].
      apply prefix_app_r. exact Hpre.
Qed.

(** A listed chord on an instrument of the synth set, with synthesizer
    methods that may throw at any point: the calls that are made are an
    initial part of the chord's schedule, and the first attack is always
    among them. *)
Lemma playInstrument_calls_prefix (loaded : gmap string ToneClass)
    (instrument chord : string) (cls : ToneClass) (notes : list string)
    (w : World) :
  loaded !! instrument = Some cls ->
  chordMap !! chord = Some notes ->
  exists calls,
    callsOf (trace (playInstrument (Some loaded) instrument (Some chord) w).2)
    = callsOf (trace w) ++ calls /\
    calls <> [] /\
    calls `prefix_of` scheduled Tone_now instrument cls notes 0 (clockReads w).
Proof.
  intros Hsynth Hchord.
  assert (Hgiven : givenChord (Some chord) = Some chord).
  { destruct chord; [| reflexivity]. vm_compute in Hchord. discriminate. }
  assert (Hnotes : notes <> []).
  { pose proof (chordMap_triads chord notes Hchord) as Hlen.
    destruct notes; [discriminate | discriminate]. }
  unfold playInstrument. rewrite Hgiven. unfold get at 1 2. rewrite Hsynth.
  cbn [truthy negb]. unfold tryCatch, tryBlock, bind at 1, console_log.
  destruct (chordToNotes_listed _ _ Hchord) as [-> _]. cbn [forEachNote].
  destruct (forEachFrom_outcome instrument cls notes 0
              (record (ConsoleLog ("Playing " +:+ instrument +:+ " notes " +:+ chord)) w))
    as (calls & Htr & Hne & Hpre).
  exists calls. split; [| split; [auto | exact Hpre]].
  destruct (forEachFrom _ notes 0 _) as [[[] | e] w1]; cbn [snd] in *.
  - rewrite Htr. cbn [record trace].
    rewrite !callsOf_app, callsOf_Called. cbn. rewrite app_nil_r. reflexivity.
  - unfold console_error. cbn [snd record trace]. rewrite Htr. cbn [record trace].
    rewrite !callsOf_app, callsOf_Called. cbn. rewrite !app_nil_r. reflexivity.
Qed.

(** X3.  A listed chord on an instrument of the synth set whose methods do
    not throw: the calls made are exactly the chord's schedule, that is six
    calls, an attack and a release per note; the attacks name the notes of
    the table entry in order, each with its octave normalised; and the
    clock is read three times, once per note. *)
Theorem playInstrument_listed_chord (loaded : gmap string ToneClass)
    (instrument chord : string) (cls : ToneClass) (notes : list string)
    (w : World) :
  loaded !! instrument = Some cls ->
  chordMap !! chord = Some notes ->
  (forall tr c, instrumentOf c = instrument -> synthFault tr c = None) ->
  let after := (playInstrument (Some loaded) instrument (Some chord) w).2 in
  let calls := scheduled Tone_now instrument cls notes 0 (clockReads w) in
  callsOf (trace after) = callsOf (trace w) ++ calls /\
  attackNotes calls = map noteWithOctave notes /\
  length calls = 6 /\
  clockReads after = 3 + clockReads w.
Proof.
  intros Hsynth Hchord Hok after calls. subst after calls.
  pose proof (chordMap_triads chord notes Hchord) as Hlen. cbn in Hlen.
  rewrite (playInstrument_scheduled Tone_now synthFault loaded instrument
             chord cls notes w Hsynth Hchord Hok).
  cbn [snd trace clockReads].
  rewrite scheduled_attackNotes, scheduled_length, Hlen.
  repeat split.
  rewrite callsOf_app. f_equal. cbn. apply callsOf_Called.
Qed.

Lemma attempt_app (tr : list Event) (calls1 calls2 : list Call) :
  attempt synthFault tr (calls1 ++ calls2)
  = match attempt synthFault tr calls1 with
    | (tr', None) => attempt synthFault tr' calls2
    | (tr', Some e) => (tr', Some e)
    end.
Proof.
  revert tr. induction calls1 as [| c rest IH]; intros tr; cbn.
  - reflexivity.
  - destruct (synthFault tr c); [reflexivity | apply IH].
Qed.

(** When no method throws, [attempt] makes every call. *)
Lemma attempt_all (tr : list Event) (calls : list Call) :
  (forall tr' c, In c calls -> synthFault tr' c = None) ->
  attempt synthFault tr calls = (tr ++ map Called calls, None).
Proof.
  revert tr. induction calls as [| c rest IH]; intros tr Hok; cbn.
  - rewrite app_nil_r. reflexivity.
  - rewrite (Hok tr c) by (left; reflexivity).
    rewrite IH by (intros tr' c' Hin; apply Hok; right; exact Hin).
    rewrite <- app_assoc. reflexivity.
Qed.

(** The callback of one note makes the note's two calls up to the first
    throw, and has read the clock once either way. *)
Lemma playNote_attempt (instrument : string) (cls : ToneClass)
    (note : string) (index : nat) (w : World) :
  playNote instrument (Value cls) note index w
  = (match (attempt synthFault (trace w)
              (noteCalls instrument cls note
                 (startTimeAt (Tone_now (clockReads w)) index))).2 with
     | None => Normal tt
     | Some e => Thrown e
     end,
     mkWorld
       (attempt synthFault (trace w)
          (noteCalls instrument cls note
             (startTimeAt (Tone_now (clockReads w)) index))).1
       (S (clockReads w)) (contextState w)).
Proof.
  destruct cls; unfold playNote, bind, noteCalls; cbn;
    repeat (match goal with
            | |- context [synthFault ?t ?c] => destruct (synthFault t c)
            end; cbn);
    reflexivity.
Qed.

Lemma forEachFrom_attempt (instrument : string) (cls : ToneClass)
    (notes : list string) :
  forall (index : nat) (w : World),
    (forEachFrom (playNote instrument (Value cls)) notes index w).1
    = match (attempt synthFault (trace w)
               (scheduled Tone_now instrument cls notes index
                  (clockReads w))).2 with
      | None => Normal tt
      | Some e => Thrown e
      end /\
    trace (forEachFrom (playNote instrument (Value cls)) notes index w).2
    = (attempt synthFault (trace w)
         (scheduled Tone_now instrument cls notes index (clockReads w))).1.
Proof.
  induction notes as [| note rest IH]; intros index w.
  - split; reflexivity.
  - cbn [forEachFrom scheduled]. unfold bind.
    rewrite playNote_attempt, attempt_app.
    destruct (attempt synthFault (trace w)
                (noteCalls instrument cls note
                   (startTimeAt (Tone_now (clockReads w)) index)))
      as [tr1 [e |]]; cbn [fst snd].
    + split; reflexivity.
    + apply (IH (S index) (mkWorld tr1 (S (clockReads w)) (contextState w))).
Qed.

(** X2.  A listed chord on an instrument of the synth set, with
    synthesizer methods that may throw at any point.  After the [Playing]
    line the dispatcher makes the calls of the chord's schedule in order,
    up to and including the first one that throws; the error of that call
    is written to the console and no further call is made for the chord.
    When no call throws the whole schedule is made and nothing is logged
    after it.  The dispatcher itself completes normally either way. *)
Theorem playInstrument_stops_at_throw (loaded : gmap string ToneClass)
    (instrument chord : string) (cls : ToneClass) (notes : list string)
    (w : World) :
  loaded !! instrument = Some cls ->
  chordMap !! chord = Some notes ->
  (playInstrument (Some loaded) instrument (Some chord) w).1 = Normal tt /\
  trace (playInstrument (Some loaded) instrument (Some chord) w).2
  = match attempt synthFault
            (trace w ++
               [ConsoleLog ("Playing " +:+ instrument +:+ " notes " +:+ chord)])
            (scheduled Tone_now instrument cls notes 0 (clockReads w)) with
    | (made, None) => made
    | (made, Some e) =>
        made ++
        [ConsoleError ("Error in playInstrument for " +:+ instrument +:+ ":")
           (Some e)]
    end.
Proof.
  intros Hsynth Hchord.
  assert (Hgiven : givenChord (Some chord) = Some chord).
  { destruct chord; [| reflexivity]. vm_compute in Hchord. discriminate. }
  assert (Hrun : exists w',
    playInstrument (Some loaded) instrument (Some chord) w = (Normal tt, w') /\
    trace w'
    = match attempt synthFault
              (trace w ++
                 [ConsoleLog ("Playing " +:+ instrument +:+ " notes " +:+ chord)])
              (scheduled Tone_now instrument cls notes 0 (clockReads w)) with
      | (made, None) => made
      | (made, Some e) =>
          made ++
          [ConsoleError ("Error in playInstrument for " +:+ instrument +:+ ":")
             (Some e)]
      end).
  { unfold playInstrument. rewrite Hgiven. unfold get at 1 2. rewrite Hsynth.
    cbn [truthy negb]. unfold tryCatch, tryBlock, bind at 1, console_log.
    destruct (chordToNotes_listed _ _ Hchord) as [-> _]. cbn [forEachNote].
    destruct (forEachFrom_attempt instrument cls notes 0
                (record (ConsoleLog ("Playing " +:+ instrument +:+ " notes " +:+ chord)) w))
      as [Hout Htr].
    cbn [record trace clockReads] in Hout, Htr.
    destruct (forEachFrom _ notes 0 _) as [out w1]. cbn [fst snd] in Hout, Htr.
    subst out.
    destruct (attempt synthFault _ _) as [made [e |]]; cbn [fst snd] in *.
    - eexists. split; [reflexivity |]. cbn. rewrite Htr. reflexivity.
    - eexists. split; [reflexivity |]. exact Htr. }
  destruct Hrun as (w' & -> & Htrace). split; [reflexivity | exact Htrace].
Qed.

End Schedule.

(** ** Handling whole messages *)

Lemma Adds_mapM_Forall {A B : Type} (P : Event -> Prop) (f : A -> M B)
    (l : list A) :
  Forall (fun x => Adds P (f x)) l -> Adds P (mapM f l).
Proof.
  induction 1 as [| x rest Hx _ IH]; cbn.
  - apply Adds_nothing. auto.
  - apply Adds_bind; [exact Hx |]. intros y.
    apply Adds_bind; [exact IH |]. intros ys. apply Adds_nothing. auto.
Qed.

Lemma bind_ret {A B : Type} (a : A) (k : A -> M B) (w : World) :
  bind (ret a) k w = k a w.
Proof. reflexivity. Qed.

Lemma mapM_normal {A B : Type} (f : A -> M B) (l : list A) :
  (forall x w, exists y w', f x w = (Normal y, w')) ->
  forall w, exists ys w', mapM f l w = (Normal ys, w').
Proof.
  intros Hf. induction l as [| x rest IH]; intros w; cbn.
  - eexists _, _. reflexivity.
  - unfold bind. destruct (Hf x w) as (y & w1 & ->).
    destruct (IH w1) as (ys & w2 & ->). eexists _, _. reflexivity.
Qed.

Lemma to_uint_nonnil (n : nat) : Nat.to_uint n <> Decimal.Nil.
Proof.
  intros Hnil. pose proof (DecimalNat.Unsigned.of_to n) as Hback.
  rewrite Hnil in Hback. cbn in Hback. subst n. discriminate Hnil.
Qed.

Lemma indexKey_digit (n : nat) : startsWithDigit (indexKey n) = true.
Proof.
  unfold indexKey. pose proof (to_uint_nonnil n) as Hnn.
  destruct (Nat.to_uint n); [contradiction | reflexivity ..].
Qed.

Lemma loadedSynths_no_index (n : nat) : loadedSynths !! indexKey n = None.
Proof.
  destruct (loadedSynths !! indexKey n) as [cls |] eqn:Hkey; [| reflexivity].
  assert (Hall : map_Forall (fun k _ => startsWithDigit k = false) loadedSynths).
  { apply map_Forall_to_list. vm_compute. repeat constructor. }
  pose proof (Hall _ _ Hkey) as Hno. cbn in Hno.
  rewrite indexKey_digit in Hno. discriminate.
Qed.

Lemma indexedFrom_keys {A : Type} (f : A -> Json) (l : list A) (i : nat) :
  Forall (fun entry : string * Json => exists n, entry.1 = indexKey n)
    (indexedFrom f l i).
Proof.
  revert i. induction l as [| x rest IH]; intros i; cbn.
  - constructor.
  - constructor; [exists i; reflexivity | apply IH].
Qed.

Section HandlerProperties.

Variable Tone_now : nat -> Q.
Variable synthFault : list Event -> Call -> option Error.
Variable JSON_parse : string -> Outcome Json.

Local Abbreviation playNote := (playNote Tone_now synthFault).
Local Abbreviation tryBlock := (tryBlock Tone_now synthFault).
Local Abbreviation playInstrument := (playInstrument Tone_now synthFault).
Local Abbreviation onMessageVia := (onMessageVia JSON_parse).
Local Abbreviation onMessage := (onMessage Tone_now synthFault JSON_parse).

Lemma playInstrument_normal (synths : option (gmap string ToneClass))
    (instrument : string) (chordOrNote : option string) (w : World) :
  exists w', playInstrument synths instrument chordOrNote w = (Normal tt, w').
Proof.
  unfold playInstrument.
  destruct (givenChord chordOrNote) as [chord |]; [| eexists; reflexivity].
  destruct synths as [loaded |]; [| eexists; reflexivity].
  cbn zeta. destruct (negb (truthy (get loaded instrument)));
    [eexists; reflexivity | apply tryCatch_logged].
Qed.

(** Without synths, or for a name that is not a key of the synth set, the
    dispatcher only writes to the console. *)
Lemma playInstrument_quiet (synths : option (gmap string ToneClass))
    (instrument : string) (chordOrNote : option string) :
  (forall loaded, synths = Some loaded -> loaded !! instrument = None) ->
  Quiet (playInstrument synths instrument chordOrNote).
Proof.
  intros Hkey. unfold playInstrument.
  destruct (givenChord chordOrNote) as [chord |]; [| auto with quiet].
  destruct synths as [loaded |]; [| auto with quiet].
  unfold get. rewrite (Hkey loaded eq_refl).
  destruct (ObjectPrototype !! instrument) as [b |]; cbn [truthy negb];
    [| auto with quiet].
  apply Quiet_tryCatch; [| auto with quiet].
  unfold tryBlock. apply Quiet_bind; [auto with quiet |]. intros _. cbn zeta.
  destruct (chordToNotes chord); cbn; auto with quiet.
  apply Quiet_forEachFrom. intros x i. apply Quiet_playNote_builtin.
Qed.

Lemma playInstrument_on_synth_set (synths : option (gmap string ToneClass))
    (instrument : string) (chordOrNote : option string) :
  Adds (fun e => onSynthSet synths e = true)
    (playInstrument synths instrument chordOrNote).
Proof.
  destruct synths as [loaded |].
  - destruct (loaded !! instrument) as [cls |] eqn:Hkey.
    + eapply Adds_weaken; [| apply playInstrument_adds].
      intros [c | c | msg | msg err]; cbn; try auto.
      destruct c; cbn; try discriminate;
        intros Heq%String.eqb_eq; subst;
        apply bool_decide_eq_true; eauto.
    + apply Quiet_Adds; [| apply playInstrument_quiet; congruence].
      intros [c | c | msg | msg err]; cbn; auto; discriminate.
  - apply Quiet_Adds; [| apply playInstrument_quiet; discriminate].
    intros [c | c | msg | msg err]; cbn; auto; discriminate.
Qed.

Lemma onMessage_adds (P : Event -> Prop)
    (dispatch : string -> option string -> M unit) (data : string) :
  (forall instrument chord, Adds P (dispatch instrument chord)) ->
  Adds P (onMessageVia dispatch data).
Proof.
  intros Hd. unfold onMessageVia.
  apply Adds_bind; [apply Adds_nothing; auto |]. intros bundle.
  apply Adds_bind; [destruct bundle; apply Adds_nothing; auto |].
  intros entries. apply Adds_bind; [| intros; apply Adds_nothing; auto].
  apply Adds_mapM. intros [instrument value].
  destruct value; try (apply Adds_nothing; solve [auto]).
  exact (Hd instrument (Some s)).
Qed.

(** X4.  Handling a message, whatever the payload, the synth state and the
    behaviour of the synthesizers, only appends to the trace, and what it
    appends is console output and attacks and releases on instruments that
    are keys of the synth set.  The audio context is neither called nor
    changed: messages are played without regard to its state. *)
Theorem onMessage_only_synth_set (synths : option (gmap string ToneClass))
    (data : string) (w : World) :
  exists evs,
    trace (onMessage synths data w).2 = trace w ++ evs /\
    Forall (fun e => onSynthSet synths e = true) evs /\
    contextState (onMessage synths data w).2 = contextState w.
Proof.
  apply onMessage_adds. intros instrument chord.
  apply playInstrument_on_synth_set.
Qed.

(** X5.  Once the payload has parsed, the handler fails for [null] only:
    there [Object.entries] throws a [TypeError] before anything is
    dispatched.  For every other value it completes normally, whatever the
    synthesizers do. *)
Theorem onMessage_parsed (synths : option (gmap string ToneClass))
    (data : string) (bundle : Json) (w : World) :
  JSON_parse data = Normal bundle ->
  (bundle = JNull /\
   onMessage synths data w
   = (Thrown (TypeError "Cannot convert undefined or null to object"), w))
  \/
  (bundle <> JNull /\
   exists w', onMessage synths data w = (Normal tt, w')).
Proof.
  intros Hparse.
  assert (Hcb : forall (entry : string * Json) (w0 : World),
    exists (y : unit) (w1 : World),
      (let '(instrument, chord) := entry in
       match chord with
       | JString chord => playInstrument synths instrument (Some chord)
       | _ => ret tt
       end) w0 = (Normal y, w1)).
  { intros [instrument value] w0. destruct value;
      try (eexists _, _; reflexivity).
    destruct (playInstrument_normal synths instrument (Some s) w0)
      as (w1 & Hrun). exists tt, w1. exact Hrun. }
  unfold onMessage, onMessageVia. unfold bind at 1. rewrite Hparse.
  destruct bundle as [| b | q | s | items | fields];
    [left; split; reflexivity | right; split; [discriminate |] ..];
    unfold bind at 1; cbn [Object_entries ret throw];
    rewrite bind_ret;
    match goal with
    | |- context [mapM ?f ?l] =>
        destruct (mapM_normal f l Hcb w) as (ys & w' & Hrun)
    end;
    unfold bind; rewrite Hrun; eexists; reflexivity.
Qed.

End HandlerProperties.

Lemma stringFields_app (fields1 fields2 : list (string * Json)) :
  stringFields (fields1 ++ fields2)
  = stringFields fields1 ++ stringFields fields2.
Proof. unfold stringFields. apply omap_app. Qed.

Lemma stringFields_keys (Q : string -> Prop) (fields : list (string * Json)) :
  Forall (fun entry : string * Json => Q entry.1) fields ->
  Forall (fun pair : string * string => Q pair.1) (stringFields fields).
Proof.
  induction 1 as [| [k v] rest Hk _ IH]; [constructor |].
  destruct v; try exact IH. constructor; [exact Hk | exact IH].
Qed.

Lemma dispatchEach_adds (P : Event -> Prop)
    (dispatch : string -> option string -> M unit)
    (pairs : list (string * string)) :
  Forall (fun pair : string * string =>
            Adds P (dispatch pair.1 (Some pair.2))) pairs ->
  Adds P (dispatchEach dispatch pairs).
Proof.
  induction 1 as [| [instrument chord] rest Hd _ IH]; cbn.
  - apply Adds_nothing. auto.
  - apply Adds_bind; [exact Hd | intros _; exact IH].
Qed.

Section MessageShapes.

Variable Tone_now : nat -> Q.
Variable synthFault : list Event -> Call -> option Error.
Variable JSON_parse : string -> Outcome Json.

Local Abbreviation playInstrument := (playInstrument Tone_now synthFault).
Local Abbreviation onMessageVia := (onMessageVia JSON_parse).
Local Abbreviation onMessage := (onMessage Tone_now synthFault JSON_parse).

(** Handling a message whose payload can be enumerated is dispatching its
    string-valued entries. *)
Lemma onMessageVia_entries (dispatch : string -> option string -> M unit)
    (data : string) (bundle : Json) (entries : list (string * Json))
    (w : World) :
  JSON_parse data = Normal bundle ->
  Object_entries bundle = ret entries ->
  onMessageVia dispatch data w
  = dispatchEach dispatch (stringFields entries) w.
Proof.
  intros Hparse Hentries. unfold onMessageVia. unfold bind at 1.
  rewrite Hparse, Hentries, bind_ret. apply mapM_dispatch.
Qed.

Lemma dispatchEach_normal (synths : option (gmap string ToneClass))
    (pairs : list (string * string)) :
  forall w, exists w',
    dispatchEach (playInstrument synths) pairs w = (Normal tt, w').
Proof.
  induction pairs as [| [instrument chord] rest IH]; intros w; cbn.
  - eexists. reflexivity.
  - unfold bind.
    destruct (playInstrument_normal Tone_now synthFault synths instrument
                (Some chord) w) as (w1 & ->).
    apply IH.
Qed.

Lemma dispatchEach_app (synths : option (gmap string ToneClass))
    (pairs1 pairs2 : list (string * string)) :
  forall w,
    dispatchEach (playInstrument synths) (pairs1 ++ pairs2) w
    = dispatchEach (playInstrument synths) pairs2
        (dispatchEach (playInstrument synths) pairs1 w).2.
Proof.
  induction pairs1 as [| [instrument chord] rest IH]; intros w; cbn.
  - reflexivity.
  - unfold bind.
    destruct (playInstrument_normal Tone_now synthFault synths instrument
                (Some chord) w) as (w1 & ->).
    apply IH.
Qed.

(** X6.  A payload that parses to a number, a boolean or an array never
    reaches a synthesizer of the loaded set: the handler completes
    normally and adds nothing but console output.  The elements of an array
    are dispatched under their index as instrument name, and no index is
    the name of an instrument. *)
Theorem onMessage_plain_value (data : string) (bundle : Json) (w : World) :
  JSON_parse data = Normal bundle ->
  isPlainValue bundle = true ->
  exists w' logs,
    onMessage (Some loadedSynths) data w = (Normal tt, w') /\
    trace w' = trace w ++ logs /\
    Forall (fun e => isConsole e = true) logs /\
    callsOf (trace w') = callsOf (trace w).
Proof.
  intros Hparse Hplain.
  assert (Hentries : exists entries,
    Object_entries bundle = ret entries /\
    Forall (fun entry : string * Json => exists n, entry.1 = indexKey n)
      entries).
  { destruct bundle; try discriminate Hplain.
    - exists []. split; [reflexivity | constructor].
    - exists []. split; [reflexivity | constructor].
    - eexists. split; [reflexivity | apply indexedFrom_keys]. }
  destruct Hentries as (entries & Hentries & Hkeys).
  unfold onMessage.
  rewrite (onMessageVia_entries _ _ _ _ _ Hparse Hentries).
  destruct (dispatchEach_normal (Some loadedSynths) (stringFields entries) w)
    as (w' & Hrun).
  assert (Hquiet : Quiet (dispatchEach (playInstrument (Some loadedSynths))
                            (stringFields entries))).
  { apply dispatchEach_adds.
    pose proof (stringFields_keys (fun k => exists n, k = indexKey n)
                  entries Hkeys) as Hpairs.
    eapply Forall_impl; [exact Hpairs |].
    intros [instrument chord] [n Hn]. cbn in *. subst instrument.
    apply playInstrument_quiet. intros loaded [= <-].
    apply loadedSynths_no_index. }
  destruct (Hquiet w) as (logs & Htr & Hlogs & _).
  rewrite Hrun in Htr. cbn in Htr.
  exists w', logs. split; [exact Hrun |]. split; [exact Htr |].
  split; [exact Hlogs |].
  rewrite Htr, callsOf_app, (callsOf_console _ Hlogs). apply app_nil_r.
Qed.

Lemma playInstrument_not_loaded (instrument : string)
    (chordOrNote : option string) (w : World) :
  playInstrument None instrument chordOrNote w
  = (Normal tt,
     record (ConsoleError "Synths not loaded or invalid note" None) w).
Proof.
  unfold playInstrument. destruct (givenChord chordOrNote); reflexivity.
Qed.

(** X7.  Until [loadSynths] has published the synths, a message that
    parses to an object is answered by one [Synths not loaded or invalid
    note] line per string-valued field and by nothing else: nothing is
    played, the clock is not read, and nothing is kept for later. *)
Theorem onMessage_before_load (data : string)
    (fields : list (string * Json)) (w : World) :
  JSON_parse data = Normal (JObject fields) ->
  onMessage None data w
  = (Normal tt,
     mkWorld
       (trace w ++
          map (fun _ => ConsoleError "Synths not loaded or invalid note" None)
            (stringFields fields))
       (clockReads w) (contextState w)).
Proof.
  intros Hparse. unfold onMessage.
  rewrite (onMessageVia_entries _ _ _ fields _ Hparse eq_refl).
  generalize (stringFields fields). intros pairs. revert w.
  induction pairs as [| [instrument chord] rest IH]; intros w.
  - cbn. rewrite app_nil_r. destruct w; reflexivity.
  - cbn [dispatchEach map]. unfold bind.
    rewrite playInstrument_not_loaded, IH. cbn [record trace clockReads contextState].
    rewrite <- app_assoc. reflexivity.
Qed.

(** X8.  The fields of a message are played independently.  If a field
    names an instrument of the synth set whose methods do not throw, and a
    listed chord, then the whole schedule of that chord appears in the
    trace, after its [Playing] line and in one piece, whatever the other
    fields are and whatever the other synthesizers do. *)
Theorem onMessage_field_isolated (loaded : gmap string ToneClass)
    (data instrument chord : string) (cls : ToneClass)
    (notes : list string) (before after : list (string * Json))
    (w : World) :
  JSON_parse data
  = Normal (JObject (before ++ (instrument, JString chord) :: after)) ->
  loaded !! instrument = Some cls ->
  chordMap !! chord = Some notes ->
  (forall tr c, instrumentOf c = instrument -> synthFault tr c = None) ->
  exists w' pre post reads,
    onMessage (Some loaded) data w = (Normal tt, w') /\
    trace w'
    = trace w ++ pre
      ++ ConsoleLog ("Playing " +:+ instrument +:+ " notes " +:+ chord)
         :: map Called (scheduled Tone_now instrument cls notes 0 reads)
      ++ post.
Proof.
  intros Hparse Hsynth Hchord Hok. unfold onMessage.
  rewrite (onMessageVia_entries _ _ _ _ _ Hparse eq_refl).
  rewrite stringFields_app.
  change (stringFields ((instrument, JString chord) :: after))
    with ((instrument, chord) :: stringFields after).
  rewrite dispatchEach_app.
  assert (Hgrow : forall pairs,
    Adds (fun _ => True) (dispatchEach (playInstrument (Some loaded)) pairs)).
  { intros pairs. apply dispatchEach_adds. apply Forall_forall.
    intros [i c] _. cbn.
    eapply Adds_weaken; [| apply playInstrument_adds]. auto. }
  destruct (Hgrow (stringFields before) w) as (pre & Hpre & _ & _).
  set (w1 := (dispatchEach (playInstrument (Some loaded))
                (stringFields before) w).2) in *.
  cbn [dispatchEach]. unfold bind at 1.
  rewrite (playInstrument_scheduled Tone_now synthFault loaded instrument
             chord cls notes w1 Hsynth Hchord Hok).
  match goal with
  | |- context [dispatchEach _ (stringFields after) ?w2] =>
      destruct (dispatchEach_normal (Some loaded) (stringFields after) w2)
        as (w' & Hrun);
      destruct (Hgrow (stringFields after) w2) as (post & Hpost & _ & _)
  end.
  rewrite Hrun in Hpost. cbn [snd trace] in Hpost.
  exists w', pre, post, (clockReads w1). split; [exact Hrun |].
  rewrite Hpost, Hpre, <- !app_assoc. reflexivity.
Qed.

End MessageShapes.


(** ** Octaves of the notes of the table *)

Lemma chordMap_note_forms :
  map_Forall
    (fun _ notes =>
       forallb (fun note =>
                  Nat.eqb (String.length note) 1
                  || (isAccidental note && Nat.eqb (String.length note) 2))
         notes = true)
    chordMap.
Proof. apply map_Forall_to_list. vm_compute. repeat constructor. Qed.

(** The names that the schedule of a listed chord attacks are of two
    kinds: a single letter followed by the octave [4], or a sharp or flat
    exactly as the table lists it. *)
Lemma scheduled_note_names (Tone_now : nat -> Q)
    (instrument chord : string) (cls : ToneClass) (notes : list string)
    (index reads : nat) :
  chordMap !! chord = Some notes ->
  Forall
    (fun sent =>
       (exists letter,
           String.length letter = 1 /\ sent = letter +:+ "4") \/
       (String.length sent = 2 /\ isAccidental sent = true))
    (attackNotes (scheduled Tone_now instrument cls notes index reads)).
Proof.
  intros Hchord. rewrite scheduled_attackNotes.
  pose proof (chordMap_note_forms chord notes Hchord) as Hforms.
  cbn in Hforms. rewrite forallb_forall in Hforms.
  apply Forall_forall. intros sent Hin.
  apply list_elem_of_In, in_map_iff in Hin. destruct Hin as (note & <- & Hnote).
  specialize (Hforms note Hnote).
  apply orb_true_iff in Hforms. destruct Hforms as [Hone | Htwo].
  - apply Nat.eqb_eq in Hone. left. exists note. split; [exact Hone |].
    apply noteWithOctave_single. exact Hone.
  - apply andb_true_iff in Htwo. destruct Htwo as [Hacc Hlen].
    apply Nat.eqb_eq in Hlen. right.
    rewrite noteWithOctave_other by lia. auto.
Qed.

Section AttackedNames.

Variable Tone_now : nat -> Q.
Variable synthFault : list Event -> Call -> option Error.

Local Abbreviation playInstrument := (playInstrument Tone_now synthFault).

(** X9.  For every chord of the table and every instrument of the synth
    set, whatever the synthesizer methods do, the dispatcher makes at least
    one attack, and every attack it makes names either a single letter
    followed by the octave [4], or a two-character sharp or flat exactly as
    the table lists it, without an octave: the octave is appended by
    length, so no accidental of the table ever gets one.  When no method
    throws, the attacked names are the three notes of the table entry, in
    order, so normalised. *)
Theorem attacked_note_names (loaded : gmap string ToneClass)
    (instrument chord : string) (cls : ToneClass) (notes : list string)
    (w : World) :
  loaded !! instrument = Some cls ->
  chordMap !! chord = Some notes ->
  exists calls,
    callsOf (trace (playInstrument (Some loaded) instrument (Some chord) w).2)
    = callsOf (trace w) ++ calls /\
    attackNotes calls <> [] /\
    Forall
      (fun sent =>
         (exists letter,
             String.length letter = 1 /\ sent = letter +:+ "4") \/
         (String.length sent = 2 /\ isAccidental sent = true))
      (attackNotes calls) /\
    ((forall tr c, instrumentOf c = instrument -> synthFault tr c = None) ->
     attackNotes calls = map noteWithOctave notes).
Proof.
  intros Hsynth Hchord.
  destruct (playInstrument_calls_prefix Tone_now synthFault loaded instrument
              chord cls notes w Hsynth Hchord)
    as (calls & Hcalls & Hne & [later Hpre]).
  exists calls. split; [exact Hcalls |].
  pose proof (scheduled_note_names Tone_now instrument chord cls notes 0
                (clockReads w) Hchord) as Hkinds.
  rewrite Hpre, attackNotes_app in Hkinds.
  apply Forall_app in Hkinds. destruct Hkinds as [Hkinds _].
  split; [| split; [exact Hkinds |]].
  - pose proof (chordMap_triads chord notes Hchord) as Hlen. cbn in Hlen.
    destruct notes as [| first others]; [discriminate Hlen |].
    destruct calls as [| c cs]; [contradiction Hne; reflexivity |].
    cbn [scheduled] in Hpre.
    assert (Hc : c = triggerAttack instrument (noteWithOctave first)
                       (startTimeAt (Tone_now (clockReads w)) 0)).
    { destruct cls; cbn in Hpre; injection Hpre as Hhead _; auto. }
    subst c. discriminate.
  - intros Hok.
    pose proof (playInstrument_scheduled Tone_now synthFault loaded instrument
                  chord cls notes w Hsynth Hchord Hok) as Hrun.
    rewrite Hrun in Hcalls. cbn [snd trace] in Hcalls.
    rewrite callsOf_app in Hcalls. apply app_inv_head in Hcalls.
    change (callsOf (ConsoleLog ("Playing " +:+ instrument +:+ " notes " +:+ chord)
                     :: map Called (scheduled Tone_now instrument cls notes 0
                                      (clockReads w))))
      with (callsOf (map Called (scheduled Tone_now instrument cls notes 0
                                   (clockReads w)))) in Hcalls.
    rewrite callsOf_Called in Hcalls. rewrite <- Hcalls.
    apply scheduled_attackNotes.
Qed.

End AttackedNames.

(** ** The audio context buttons *)

Lemma contextCallsOf_app (tr1 tr2 : list Event) :
  contextCallsOf (tr1 ++ tr2) = contextCallsOf tr1 ++ contextCallsOf tr2.
Proof. unfold contextCallsOf. apply omap_app. Qed.

Section AudioProperties.

Variable platformResume : AudioContextState -> Outcome AudioContextState.
Variable platformClose : AudioContextState -> Outcome AudioContextState.

Local Abbreviation handleStartAudio := (handleStartAudio platformResume).
Local Abbreviation handleStopAudio := (handleStopAudio platformClose).

(** X10.  Neither button handler throws, whatever state the context is in
    and whatever it answers, and neither reaches a synthesizer.  Play makes
    at most one call on the context, a [resume()], and Pause at most one,
    a [close()]. *)
Theorem audio_buttons_safe (w : World) :
  exists started stopped,
    handleStartAudio w = (Normal tt, started) /\
    handleStopAudio w = (Normal tt, stopped) /\
    callsOf (trace started) = callsOf (trace w) /\
    callsOf (trace stopped) = callsOf (trace w) /\
    (contextCallsOf (trace started) = contextCallsOf (trace w) \/
     contextCallsOf (trace started) = contextCallsOf (trace w) ++ [resume]) /\
    (contextCallsOf (trace stopped) = contextCallsOf (trace w) \/
     contextCallsOf (trace stopped) = contextCallsOf (trace w) ++ [close]).
Proof.
  unfold handleStartAudio, handleStopAudio, tryCatch, bind, contextCall,
    console_log, console_error, record, ret.
  destruct (contextState w); cbn;
    repeat (match goal with
            | |- context [platformResume ?s] => destruct (platformResume s)
            | |- context [platformClose ?s] => destruct (platformClose s)
            end; cbn);
    eexists _, _; (split; [reflexivity |]); (split; [reflexivity |]);
    cbn [trace]; rewrite ?callsOf_app, ?contextCallsOf_app; cbn;
    rewrite ?app_nil_r; auto.
Qed.

(** X11.  Pause is final.  On a running context that closes on [close()],
    as the platform specifies, Pause leaves the context closed; Play then
    does call [resume()], because its guard only asks whether the context
    is running, and when the platform rejects resuming a closed context the
    error is logged and the context stays closed. *)
Theorem pause_then_play (w : World) (e : Error) :
  contextState w = running ->
  platformClose running = Normal closed ->
  platformResume closed = Thrown e ->
  handleStartAudio (handleStopAudio w).2
  = (Normal tt,
     mkWorld
       (trace w ++
          [ ContextCalled close;
            ConsoleLog "Audio context stopped";
            ContextCalled resume;
            ConsoleError "Error starting audio context:" (Some e) ])
       (clockReads w) closed).
Proof.
  intros Hrunning Hclose Hresume.
  unfold handleStartAudio, handleStopAudio, tryCatch, bind, contextCall,
    console_log, console_error, record.
  rewrite Hrunning. cbn. rewrite Hclose. cbn. rewrite Hresume. cbn.
  rewrite <- !app_assoc. reflexivity.
Qed.

(** X12.  A button that has had its effect does nothing when pressed
    again: after a Play that brought the context to running a second Play
    changes nothing, and after a Pause that took it out of running a second
    Pause changes nothing. *)
Theorem audio_buttons_idempotent (idle playing : World)
    (stopped : AudioContextState) :
  contextState idle <> running ->
  platformResume (contextState idle) = Normal running ->
  contextState playing = running ->
  platformClose running = Normal stopped ->
  stopped <> running ->
  contextState (handleStartAudio idle).2 = running /\
  handleStartAudio (handleStartAudio idle).2
  = (Normal tt, (handleStartAudio idle).2) /\
  contextState (handleStopAudio playing).2 = stopped /\
  handleStopAudio (handleStopAudio playing).2
  = (Normal tt, (handleStopAudio playing).2).
Proof.
  intros Hidle Hresume Hplaying Hclose Hstopped.
  assert (Hstart : contextState (handleStartAudio idle).2 = running).
  { unfold handleStartAudio, tryCatch, bind, contextCall, console_log.
    destruct (contextState idle) eqn:Hs; [| contradiction |];
      cbn; rewrite Hresume; reflexivity. }
  assert (Hstop : contextState (handleStopAudio playing).2 = stopped).
  { unfold handleStopAudio, tryCatch, bind, contextCall, console_log.
    rewrite Hplaying. cbn. rewrite Hclose. reflexivity. }
  split; [exact Hstart |]. split.
  - unfold handleStartAudio at 1. rewrite Hstart. reflexivity.
  - split; [exact Hstop |].
    unfold handleStopAudio at 1. rewrite Hstop.
    destruct stopped; [reflexivity | contradiction | reflexivity].
Qed.

End AudioProperties.


(** * Concrete runs of the further properties *)

Lemma playInstrument_stops_at_throw_witness :
  loadedSynths !! "kick" = Some MembraneSynth /\
  chordMap !! "Cmaj" = Some ["C"; "E"; "G"] /\
  (playInstrument Sample.clock Moving.wearsOut (Some loadedSynths)
     "kick" (Some "Cmaj") Sample.fresh).1 = Normal tt /\
  trace (playInstrument Sample.clock Moving.wearsOut (Some loadedSynths)
           "kick" (Some "Cmaj") Sample.fresh).2
  = [ ConsoleLog "Playing kick notes Cmaj";
      Called (triggerAttack "kick" "C4" (startTimeAt (2 # 1) 0));
      Called (triggerRelease "kick" (startTimeAt (2 # 1) 0 + (5 # 10))%Q);
      Called (triggerAttack "kick" "E4" (startTimeAt (2 # 1) 1));
      Called (triggerRelease "kick" (startTimeAt (2 # 1) 1 + (5 # 10))%Q);
      ConsoleError "Error in playInstrument for kick:"
        (Some (LibraryError "context is closed")) ].
Proof.
  split; [vm_compute; reflexivity |]. split; [vm_compute; reflexivity |].
  destruct (playInstrument_stops_at_throw Sample.clock Moving.wearsOut
              loadedSynths "kick" "Cmaj" MembraneSynth ["C"; "E"; "G"]
              Sample.fresh)
    as [Hout Htrace].
  - vm_compute. reflexivity.
  - vm_compute. reflexivity.
  - split; [exact Hout |]. rewrite Htrace. reflexivity.
Defined.

Lemma playInstrument_listed_chord_witness :
  loadedSynths !! "guitar" = Some PolySynth /\
  attackNotes
    (scheduled Sample.clock "guitar" PolySynth ["B"; "D#"; "F#"] 0 0)
  = ["B4"; "D#"; "F#"] /\
  clockReads
    (playInstrument Sample.clock Sample.sound (Some loadedSynths)
       "guitar" (Some "Bmaj") Sample.fresh).2
  = 3.
Proof.
  split; [vm_compute; reflexivity |].
  destruct (playInstrument_listed_chord Sample.clock Sample.sound
              loadedSynths "guitar" "Bmaj" PolySynth ["B"; "D#"; "F#"]
              Sample.fresh)
    as (_ & Hnotes & _ & Hclock).
  - vm_compute. reflexivity.
  - vm_compute. reflexivity.
  - intros tr c _. reflexivity.
  - split; [exact Hnotes | exact Hclock].
Defined.

Lemma onMessage_parsed_witness :
  Shapes.parse "null" = Normal JNull /\
  onMessage Sample.clock Sample.sound Shapes.parse (Some loadedSynths)
    "null" Sample.fresh
  = (Thrown (TypeError "Cannot convert undefined or null to object"),
     Sample.fresh).
Proof.
  split; [vm_compute; reflexivity |].
  destruct (onMessage_parsed Sample.clock Sample.sound Shapes.parse
              (Some loadedSynths) "null" JNull Sample.fresh)
    as [[_ Hnull] | [Hother _]].
  - vm_compute. reflexivity.
  - exact Hnull.
  - contradiction Hother. reflexivity.
Defined.

Lemma onMessage_plain_value_witness :
  Shapes.parse Shapes.arrayPayload
  = Normal (JArray [JString "Cmaj"; JString "kick"]) /\
  exists w' logs,
    onMessage Sample.clock Sample.sound Shapes.parse (Some loadedSynths)
      Shapes.arrayPayload Sample.fresh = (Normal tt, w') /\
    trace w' = trace Sample.fresh ++ logs /\
    Forall (fun e => isConsole e = true) logs /\
    callsOf (trace w') = callsOf (trace Sample.fresh).
Proof.
  split; [vm_compute; reflexivity |].
  apply (onMessage_plain_value Sample.clock Sample.sound Shapes.parse
           Shapes.arrayPayload (JArray [JString "Cmaj"; JString "kick"])
           Sample.fresh);
    vm_compute; reflexivity.
Defined.

Lemma onMessage_before_load_witness :
  Sample.parse Sample.mixedPayload = Normal (JObject Sample.mixedFields) /\
  onMessage Sample.clock Sample.sound Sample.parse None
    Sample.mixedPayload Sample.fresh
  = (Normal tt,
     mkWorld
       [ ConsoleError "Synths not loaded or invalid note" None;
         ConsoleError "Synths not loaded or invalid note" None ]
       0 suspended).
Proof.
  split; [vm_compute; reflexivity |].
  apply (onMessage_before_load Sample.clock Sample.sound Sample.parse
           Sample.mixedPayload Sample.mixedFields Sample.fresh).
  vm_compute. reflexivity.
Defined.

Lemma onMessage_field_isolated_witness :
  Shapes.parse Shapes.duoPayload
  = Normal (JObject ([("piano", JString "Fmin")]
                       ++ ("kick", JString "Cmaj") :: [])) /\
  exists w' pre post reads,
    onMessage Sample.clock Shapes.pianoUnloaded Shapes.parse
      (Some loadedSynths) Shapes.duoPayload Sample.fresh = (Normal tt, w') /\
    trace w'
    = trace Sample.fresh ++ pre
      ++ ConsoleLog ("Playing " +:+ "kick" +:+ " notes " +:+ "Cmaj")
         :: map Called
              (scheduled Sample.clock "kick" MembraneSynth ["C"; "E"; "G"]
                 0 reads)
      ++ post.
Proof.
  split; [vm_compute; reflexivity |].
  apply (onMessage_field_isolated Sample.clock Shapes.pianoUnloaded
           Shapes.parse loadedSynths Shapes.duoPayload "kick" "Cmaj"
           MembraneSynth ["C"; "E"; "G"] [("piano", JString "Fmin")] []
           Sample.fresh).
  - vm_compute. reflexivity.
  - vm_compute. reflexivity.
  - vm_compute. reflexivity.
  - intros tr c Hc. unfold Shapes.pianoUnloaded. rewrite Hc. reflexivity.
Defined.

Lemma attacked_note_names_witness :
  loadedSynths !! "guitar" = Some PolySynth /\
  chordMap !! "Bmaj" = Some ["B"; "D#"; "F#"] /\
  exists calls,
    callsOf
      (trace (playInstrument Sample.clock Sample.sound (Some loadedSynths)
                "guitar" (Some "Bmaj") Sample.fresh).2)
    = callsOf (trace Sample.fresh) ++ calls /\
    attackNotes calls = ["B4"; "D#"; "F#"] /\
    Forall
      (fun sent =>
         (exists letter,
             String.length letter = 1 /\ sent = letter +:+ "4") \/
         (String.length sent = 2 /\ isAccidental sent = true))
      (attackNotes calls).
Proof.
  split; [vm_compute; reflexivity |]. split; [vm_compute; reflexivity |].
  destruct (attacked_note_names Sample.clock Sample.sound loadedSynths
              "guitar" "Bmaj" PolySynth ["B"; "D#"; "F#"] Sample.fresh)
    as (calls & Hcalls & _ & Hkinds & Hall).
  - vm_compute. reflexivity.
  - vm_compute. reflexivity.
  - exists calls. split; [exact Hcalls |]. split; [| exact Hkinds].
    apply Hall. intros tr c _. reflexivity.
Defined.

Lemma pause_then_play_witness :
  handleStartAudio Shapes.resumes
    (handleStopAudio Shapes.closes Sample.playing).2
  = (Normal tt,
     mkWorld
       [ ContextCalled close;
         ConsoleLog "Audio context stopped";
         ContextCalled resume;
         ConsoleError "Error starting audio context:"
           (Some (LibraryError "InvalidStateError")) ]
       0 closed).
Proof.
  apply (pause_then_play Shapes.resumes Shapes.closes Sample.playing
           (LibraryError "InvalidStateError")); reflexivity.
Defined.

Lemma audio_buttons_idempotent_witness :
  contextState (handleStartAudio Shapes.resumes Sample.fresh).2 = running /\
  handleStartAudio Shapes.resumes
    (handleStartAudio Shapes.resumes Sample.fresh).2
  = (Normal tt, (handleStartAudio Shapes.resumes Sample.fresh).2) /\
  contextState (handleStopAudio Shapes.closes Sample.playing).2 = closed /\
  handleStopAudio Shapes.closes
    (handleStopAudio Shapes.closes Sample.playing).2
  = (Normal tt, (handleStopAudio Shapes.closes Sample.playing).2).
Proof.
  apply (audio_buttons_idempotent Shapes.resumes Shapes.closes
           Sample.fresh Sample.playing closed);
    first [reflexivity | discriminate].
Defined.
